(** * Chord positioning in the songbook parsers

    A shallow embedding of the chord-to-lyric positioning core of the
    songbook parsers (classification of text lines, chord grammar, the direct
    pixel mapper, the proportional mapper, the chord lookup of the verse
    builders and the ChordPro line renderers), with the properties the
    specification states about them.

    Conventions of the embedding.
    - A Python [str] is a [list ascii]: text over the code points below 256,
      with Python's own character classes on that range.
    - A Python [int] is a [Z]; list indices and lengths are [nat].
    - A Python [float] is a carrier [F] with the operations the parsers use
      (class [PyFloat]); the definitions are written once over any such
      carrier.  Two carriers are given: exact rationals ([Q], no rounding)
      and IEEE binary64 ([PrimFloat.float], the arithmetic Python runs).
      Theorems stated for every carrier hold for both; theorems that need
      the laws of arithmetic are stated over the rationals.
    - [print] calls are diagnostics and are left out. *)

From Stdlib Require Import ZArith QArith Qround Qabs Lia Lqa Ascii String.
From Stdlib Require Import Permutation Sorted.
From Stdlib Require Import Uint63 PrimFloat FloatOps SpecFloat.
From Equations Require Import Equations.
From stdpp Require Import base list strings gmap.

Local Open Scope nat_scope.

Abbreviation str := (list ascii) (only parsing).
Abbreviation py s := (list_ascii_of_string s%string) (only parsing).

(** The result of a test kept together with its equation, for definitions by
    well-founded recursion. *)
Definition inspect {A} (x : A) : { y : A | x = y } := exist _ x eq_refl.

(** ** Python floats *)

Class PyFloat (F : Type) := {
  of_int : Z → F;                (* float(n), and an int operand of a float operation *)
  fadd : F → F → F;
  fsub : F → F → F;
  fmul : F → F → F;
  fdiv : F → F → F;
  feq : F → F → bool;            (* a == b *)
  flt : F → F → bool;            (* a < b *)
  fle : F → F → bool;            (* a <= b *)
  to_int : F → Z                 (* int(x): truncation toward zero *)
}.

(** A decimal literal [p/q] of the source (0.6 is [6/10], 18.0 is [18/1]). *)
Definition literal `{PyFloat F} (p q : Z) : F := fdiv (of_int p) (of_int q).

(** [max(a, b)] and [min(a, b)] of two floats: the first argument is kept
    unless the second is strictly greater (smaller). *)
Definition fmax `{PyFloat F} (a b : F) : F := if flt a b then b else a.
Definition fmin `{PyFloat F} (a b : F) : F := if flt b a then b else a.

(** Exact rationals. *)
Definition Qlt_bool (a b : Q) : bool := negb (Qle_bool b a).
Definition Qtrunc (x : Q) : Z := Z.quot (Qnum x) (Z.pos (Qden x)).

#[export] Instance Q_float : PyFloat Q := {|
  of_int := inject_Z;
  fadd := Qplus; fsub := Qminus; fmul := Qmult; fdiv := Qdiv;
  feq := Qeq_bool; flt := Qlt_bool; fle := Qle_bool;
  to_int := Qtrunc
|}.

(** IEEE binary64. *)
Definition float_of_Z (n : Z) : float :=
  match n with
  | Z0 => PrimFloat.zero
  | Zpos _ => PrimFloat.of_uint63 (Uint63.of_Z n)
  | Zneg p => PrimFloat.opp (PrimFloat.of_uint63 (Uint63.of_Z (Zpos p)))
  end.

Definition float_trunc (x : float) : Z :=
  match Prim2SF x with
  | S754_finite s m e =>
      let v := match e with
               | Zneg k => Z.shiftr (Zpos m) (Zpos k)
               | _ => Z.shiftl (Zpos m) e
               end in
      if s then Z.opp v else v
  | _ => 0%Z
  end.

#[export] Instance binary64_float : PyFloat float := {|
  of_int := float_of_Z;
  fadd := PrimFloat.add; fsub := PrimFloat.sub;
  fmul := PrimFloat.mul; fdiv := PrimFloat.div;
  feq := PrimFloat.eqb; flt := PrimFloat.ltb; fle := PrimFloat.leb;
  to_int := float_trunc
|}.

(** ** Python strings *)

Module Py.

Definition code (c : ascii) : N := N_of_ascii c.

Definition between (lo hi : N) (c : ascii) : bool :=
  (lo <=? code c)%N && (code c <=? hi)%N.

(** [c.isspace()], also the class [\s] of [re] *)
Definition isspace (c : ascii) : bool :=
  between 9 13 c || between 28 32 c || between 133 133 c || between 160 160 c.

(** [c.isupper()], [c.islower()] and [c.lower()] of one character *)
Definition char_isupper (c : ascii) : bool :=
  between 65 90 c || between 192 214 c || between 216 222 c.

Definition char_islower (c : ascii) : bool :=
  between 97 122 c || between 170 170 c || between 181 181 c
  || between 186 186 c || between 223 246 c || between 248 255 c.

Definition char_lower (c : ascii) : ascii :=
  if char_isupper c then ascii_of_N (code c + 32) else c.

(** the classes [\d], [[A-Z]] and [[a-z]] of [re] *)
Definition isdigit (c : ascii) : bool := between 48 57 c.
Definition re_AZ (c : ascii) : bool := between 65 90 c.
Definition re_az (c : ascii) : bool := between 97 122 c.

Definition char_eqb (a b : ascii) : bool := Ascii.eqb a b.

Definition lower (s : str) : str := map char_lower s.

(** [s.isupper()]: some cased character, and no lowercase one *)
Definition isupper (s : str) : bool :=
  existsb char_isupper s && forallb (λ c, negb (char_islower c)) s.

Fixpoint lstrip (s : str) : str :=
  match s with
  | c :: s' => if isspace c then lstrip s' else s
  | [] => []
  end.

Definition rstrip (s : str) : str := rev (lstrip (rev s)).

Definition strip (s : str) : str := rstrip (lstrip s).

(** [s.split()]: the maximal runs of characters that are not whitespace.
    [cur] is the run being read, in reverse. *)
Fixpoint split_from (cur : str) (s : str) : list str :=
  match s with
  | [] => match cur with [] => [] | _ => [rev cur] end
  | c :: s' =>
      if isspace c
      then match cur with [] => split_from [] s' | _ => rev cur :: split_from [] s' end
      else split_from (c :: cur) s'
  end.

Definition split (s : str) : list str := split_from [] s.

Fixpoint startswith (s prefix : str) : bool :=
  match prefix, s with
  | [], _ => true
  | p :: prefix', c :: s' => char_eqb p c && startswith s' prefix'
  | _ :: _, [] => false
  end.

Definition endswith (s suffix : str) : bool := startswith (rev s) (rev suffix).

(** [sub in s] *)
Fixpoint contains (sub s : str) : bool :=
  startswith s sub ||
  match s with
  | [] => false
  | _ :: s' => contains sub s'
  end.

(** [c in s] for one character *)
Definition has_char (c : ascii) (s : str) : bool := existsb (char_eqb c) s.

(** [s.find(sub, start)]: the lowest index [>= start] where [sub] occurs,
    [None] for Python's [-1]. *)
Fixpoint find_from (sub s : str) (i : nat) : option nat :=
  if startswith s sub then Some i
  else match s with
       | [] => None
       | _ :: s' => find_from sub s' (S i)
       end.

Definition find (s sub : str) (start : nat) : option nat :=
  if length s <? start then None else find_from sub (drop start s) start.

(** [s[a:b]] and [s[a:]] for [0 <= a <= b] *)
Definition slice (s : str) (a b : nat) : str := take (b - a) (drop a s).
Definition slice_from (s : str) (a : nat) : str := drop a s.

(** [sorted(l, key=len, reverse=True)]: stable, longest first *)
Fixpoint insert_by_len (x : str) (l : list str) : list str :=
  match l with
  | [] => [x]
  | y :: l' => if length x <? length y then y :: insert_by_len x l' else x :: l
  end.

Definition sorted_by_len_desc (l : list str) : list str :=
  foldr insert_by_len [] l.

End Py.

(** ** The chord grammar

    Every parser class builds the same [valid_chords] set in its constructor
    and carries the same [_looks_like_chord]. *)

Module ChordSystem.

Definition minors : list str :=
  [py "e"; py "f"; py "fis"; py "g"; py "gis"; py "a"; py "b"; py "h";
   py "c"; py "cis"; py "d"; py "dis"].

Definition majors : list str :=
  [py "E"; py "F"; py "FIS"; py "G"; py "GIS"; py "A"; py "B"; py "H";
   py "C"; py "CIS"; py "D"; py "DIS"].

(** the values of the [base_chords] dict, in insertion order *)
Definition base_chords : list (list str) := [minors; majors].

Definition valid_chords : gset str :=
  let add_variations (s : gset str) (chord : str) : gset str :=
    let s := foldl (λ s num, s ∪ {[ chord ++ num ]}) s
               [py "7"; py "9"; py "11"; py "13"] in
    foldl (λ s suffix, s ∪ {[ chord ++ suffix ]}) s
      [py "sus2"; py "sus4"; py "maj7"; py "min7"; py "dim"; py "aug"; py "add9"] in
  let s := foldl (λ s chord_list,
                    foldl add_variations (s ∪ list_to_set chord_list) chord_list)
             ∅ base_chords in
  s ∪ list_to_set [py "*"; py "d*"].

(** [word in self.valid_chords] *)
Definition is_valid_chord (word : str) : bool := bool_decide (word ∈ valid_chords).

(** [range(1, len(word))] *)
Definition split_points (word : str) : list nat := seq 1 (length word - 1).

Definition splits_at (word : str) (i : nat) : bool :=
  is_valid_chord (take i word) && is_valid_chord (drop i word).

Definition _looks_like_chord (word : str) : bool :=
  if is_valid_chord word then true
  else if Py.has_char " " word then existsb is_valid_chord (Py.split word)
  else if 1 <? length word then existsb (splits_at word) (split_points word)
  else false.

(** [_is_chord_line_text] of the span parsers, [_is_chord_line] of
    [ProportionalMapper] (the [pdftotext] parser strips the line first, which
    leaves [split] unchanged). *)
Definition chord_count (words : list str) : nat :=
  length (List.filter _looks_like_chord words).

Definition _is_chord_line_text `{PyFloat F} (text : str) : bool :=
  let words := Py.split text in
  match words with
  | [] => false
  | _ => flt (literal 6 10)
           (fdiv (of_int (Z.of_nat (chord_count words)))
                 (of_int (Z.of_nat (length words))))
  end.
#[global] Arguments _is_chord_line_text F {_} text.

End ChordSystem.

(** [sorted(l, key=...)] on an integer key: stable, ascending *)
Fixpoint insert_by_key {A} (key : A → Z) (x : A) (l : list A) : list A :=
  match l with
  | [] => [x]
  | y :: l' => if (key y <? key x)%Z then y :: insert_by_key key x l' else x :: l
  end.

Definition sorted_by_key {A} (key : A → Z) (l : list A) : list A :=
  foldr (insert_by_key key) [] l.

(** ** Glyph metrics (the same table in both span parsers) *)

Module Arial.

Definition arial_char_widths : gmap ascii Z :=
  list_to_map
   [("A"%char, 667); ("B"%char, 667); ("C"%char, 722); ("D"%char, 722); ("E"%char, 667);
    ("F"%char, 611); ("G"%char, 778); ("H"%char, 722); ("I"%char, 278); ("J"%char, 500);
    ("K"%char, 667); ("L"%char, 556); ("M"%char, 833); ("N"%char, 722); ("O"%char, 778);
    ("P"%char, 667); ("Q"%char, 778); ("R"%char, 722); ("S"%char, 667); ("T"%char, 611);
    ("U"%char, 722); ("V"%char, 667); ("W"%char, 944); ("X"%char, 667); ("Y"%char, 667);
    ("Z"%char, 611); ("a"%char, 556); ("b"%char, 556); ("c"%char, 500); ("d"%char, 556);
    ("e"%char, 556); ("f"%char, 278); ("g"%char, 556); ("h"%char, 556); ("i"%char, 222);
    ("j"%char, 222); ("k"%char, 500); ("l"%char, 222); ("m"%char, 833); ("n"%char, 556);
    ("o"%char, 556); ("p"%char, 556); ("q"%char, 556); ("r"%char, 333); ("s"%char, 500);
    ("t"%char, 278); ("u"%char, 556); ("v"%char, 500); ("w"%char, 722); ("x"%char, 500);
    ("y"%char, 500); ("z"%char, 500); (" "%char, 278); ("."%char, 278); (","%char, 278);
    (":"%char, 278); (";"%char, 278); ("!"%char, 333); ("?"%char, 556);
    (ascii_of_nat 34, 355); ("'"%char, 191); ("("%char, 333); (")"%char, 333);
    ("["%char, 278); ("]"%char, 278); ("{"%char, 334); ("}"%char, 334); ("-"%char, 333);
    ("_"%char, 556); ("="%char, 584); ("+"%char, 584); ("*"%char, 389); ("/"%char, 278);
    (ascii_of_nat 92, 278); ("|"%char, 260); ("&"%char, 667); ("%"%char, 889);
    ("$"%char, 556); ("#"%char, 556); ("@"%char, 1015); ("^"%char, 469); ("~"%char, 584);
    ("`"%char, 333); ("0"%char, 556); ("1"%char, 556); ("2"%char, 556); ("3"%char, 556);
    ("4"%char, 556); ("5"%char, 556); ("6"%char, 556); ("7"%char, 556); ("8"%char, 556);
    ("9"%char, 556)]%Z.

(** [self.arial_char_widths.get(char, 556)] *)
Definition font_units (char : ascii) : Z := default 556%Z (arial_char_widths !! char).

Definition get_char_width `{PyFloat F} (char : ascii) (font_size : F) : F :=
  fmul (fdiv (of_int (font_units char)) (of_int 1000)) font_size.

End Arial.

(** ** The span parser ([PyMuPDFSpanParser]) *)

Module PyMuPDFSpanParser.
Import ChordSystem Arial.

Definition role_markers : list str :=
  [py "K.+Z."; py "K.+P."; py "K."; py "Z."; py "P."; py "D."].

(** The line dicts of [_extract_span_data], with the keys the chord lookup
    and the verse builder read. *)
Record LineData (F : Type) := {
  text : str;
  text_content : str;
  x_start : F;
  width : F;
  y : F;
  font_size : F;
  is_pink : bool
}.
#[global] Arguments text {F} _.
#[global] Arguments text_content {F} _.
#[global] Arguments x_start {F} _.
#[global] Arguments width {F} _.
#[global] Arguments y {F} _.
#[global] Arguments font_size {F} _.
#[global] Arguments is_pink {F} _.

Record ChordPosition (F : Type) := {
  chord : str;
  position : Z;
  x_coord : F
}.
#[global] Arguments chord {F} _.
#[global] Arguments position {F} _.
#[global] Arguments x_coord {F} _.

(** The [VerseLine] dataclass (its fields [text], [chords], [original_line]). *)
Record VerseLine (F : Type) := {
  verse_text : str;
  verse_chords : list (ChordPosition F);
  verse_original_line : str
}.
#[global] Arguments verse_text {F} _.
#[global] Arguments verse_chords {F} _.
#[global] Arguments verse_original_line {F} _.

Section Mapper.
Context {F : Type} `{PyFloat F}.

(** The loop of [find_chord_positions_in_span] over [words], with the running
    [current_pos]. *)
Fixpoint chord_positions_loop (chord_span_text : str) (chord_span_start chord_span_width : F)
    (words : list str) (current_pos : nat) : list (str * F) :=
  match words with
  | [] => []
  | word :: words' =>
      if _looks_like_chord word then
        match Py.find chord_span_text word current_pos with
        | Some word_start_in_text =>
            let proportional_pos :=
              fdiv (of_int (Z.of_nat word_start_in_text))
                   (of_int (Z.of_nat (length chord_span_text))) in
            let pixel_pos := fadd chord_span_start (fmul proportional_pos chord_span_width) in
            (word, pixel_pos)
              :: chord_positions_loop chord_span_text chord_span_start chord_span_width
                   words' (word_start_in_text + length word)
        | None =>
            chord_positions_loop chord_span_text chord_span_start chord_span_width
              words' current_pos
        end
      else
        chord_positions_loop chord_span_text chord_span_start chord_span_width
          words' current_pos
  end.

Definition find_chord_positions_in_span (chord_span_text : str)
    (chord_span_start chord_span_width : F) : list (str * F) :=
  chord_positions_loop chord_span_text chord_span_start chord_span_width
    (Py.split chord_span_text) 0.

(** The [for i, char in enumerate(verse_text)] loop of
    [map_chord_to_verse_position]: [i] is the index of the head of [chars],
    the result is the final [char_position]. *)
Fixpoint walk_chars (verse_pixel_x font_size : F) (chars : str) (i : Z)
    (current_pixel : F) (char_position : Z) : Z :=
  match chars with
  | [] => char_position
  | char :: chars' =>
      let char_width := get_char_width char font_size in
      let char_center := fadd current_pixel (fdiv char_width (of_int 2)) in
      if fle verse_pixel_x char_center then i
      else walk_chars verse_pixel_x font_size chars' (i + 1)
             (fadd current_pixel char_width) (i + 1)
  end.

(** [chord_x_clamped] *)
Definition clamp_to_span (chord_pixel_x verse_span_start verse_span_width : F) : F :=
  fmax verse_span_start (fmin chord_pixel_x (fadd verse_span_start verse_span_width)).

Definition map_chord_to_verse_position
    (chord_pixel_x chord_span_start chord_span_width : F) (verse_text : str)
    (verse_span_start verse_span_width font_size : F) : Z :=
  if feq verse_span_width (of_int 0) then 0%Z
  else
    let chord_x_clamped := clamp_to_span chord_pixel_x verse_span_start verse_span_width in
    let verse_pixel_x := chord_x_clamped in
    let char_position :=
      walk_chars verse_pixel_x font_size verse_text 0 verse_span_start 0 in
    Z.max 0 (Z.min char_position (Z.of_nat (length verse_text))).

(** The search for [best_chord_line]: the state is [None] while
    [min_distance] is [float('inf')] and [best_chord_line] is [None]. *)
Definition closest_step (text_y : F) (best : option (F * LineData F))
    (chord_line_data : LineData F) : option (F * LineData F) :=
  let chord_y := y chord_line_data in
  if flt chord_y text_y then
    let distance := fsub text_y chord_y in
    let closer := match best with
                  | None => true
                  | Some (min_distance, _) => flt distance min_distance
                  end in
    if closer then Some (distance, chord_line_data) else best
  else best.

Definition closest_chord_line_above (text_y : F) (chord_lines : list (LineData F))
  : option (LineData F) :=
  snd <$> foldl (closest_step text_y) None chord_lines.

(** The chords of one located chord line, before sorting. *)
Definition map_positions (best_chord_line text_line_data : LineData F)
    (chord_positions : list (str * F)) : list (ChordPosition F) :=
  map (λ '(chord_name, chord_pixel_x),
         {| chord := chord_name;
            position := map_chord_to_verse_position chord_pixel_x
                          (x_start best_chord_line) (width best_chord_line)
                          (text_content text_line_data)
                          (x_start text_line_data) (width text_line_data)
                          (font_size text_line_data);
            x_coord := chord_pixel_x |})
      chord_positions.

Definition _find_chords_with_span_positioning (text_line_data : LineData F)
    (chord_lines : list (LineData F)) : list (ChordPosition F) :=
  let text_y := y text_line_data in
  match closest_chord_line_above text_y chord_lines with
  | None => []
  | Some best_chord_line =>
      let distance := fsub text_y (y best_chord_line) in
      if flt (literal 18 1) distance then []
      else
        let chord_positions :=
          find_chord_positions_in_span (text best_chord_line)
            (x_start best_chord_line) (width best_chord_line) in
        sorted_by_key position
          (map_positions best_chord_line text_line_data chord_positions)
  end.

(** The loop of [_parse_verses_with_span_positioning_enhanced] that builds
    the default verse from the text lines no role claimed: its body on one
    line, and the loop. *)
Definition default_verse_line (text_line_data : LineData F)
    (chord_lines : list (LineData F)) : VerseLine F :=
  let text := text text_line_data in
  let chords := _find_chords_with_span_positioning text_line_data chord_lines in
  if is_pink text_line_data
     && Py.startswith (Py.strip text) (py "(") && Py.endswith (Py.strip text) (py ")")
  then {| verse_text := py "{comment: " ++ Py.strip text ++ py "}";
          verse_chords := []; verse_original_line := text |}
  else {| verse_text := Py.strip text; verse_chords := chords;
          verse_original_line := text |}.

Definition default_verse_lines (unprocessed_lines chord_lines : list (LineData F))
  : list (VerseLine F) :=
  map (λ text_line_data, default_verse_line text_line_data chord_lines) unprocessed_lines.

End Mapper.

(** *** Classification of a line in [_extract_span_data] *)

Fixpoint drop_while (p : ascii → bool) (s : str) : str :=
  match s with
  | c :: s' => if p c then drop_while p s' else s
  | [] => []
  end.

Definition not_close_paren (c : ascii) : bool := negb (Py.char_eqb c ")").

(** One match attempt of
    [\s*-\s*[A-Z][a-z]+\s*\d+[^)]*(\([^)]*\))?] at the head of [s]: the text
    after the match.  Every greedy item is followed by an item that cannot
    start with a character of its class, so no backtracking changes the
    outcome; [[^)]*] runs to the first [)] or the end, where the optional
    group, which needs [(], matches empty. *)
Definition match_biblical_ref (s : str) : option str :=
  match Py.lstrip s with
  | "-"%char :: s2 =>
      match Py.lstrip s2 with
      | c :: s4 =>
          if Py.re_AZ c then
            match s4 with
            | c' :: _ =>
                if Py.re_az c' then
                  match Py.lstrip (drop_while Py.re_az s4) with
                  | d :: s7 =>
                      if Py.isdigit d
                      then Some (drop_while not_close_paren (drop_while Py.isdigit s7))
                      else None
                  | [] => None
                  end
                else None
            | [] => None
            end
          else None
      | [] => None
      end
  | _ => None
  end.

(** One match attempt of [\([^)]*\)] at the head of [s]. *)
Definition match_parenthetical (s : str) : option str :=
  match s with
  | "("%char :: s1 =>
      match drop_while not_close_paren s1 with
      | ")"%char :: s3 => Some s3
      | _ => None
      end
  | _ => None
  end.

(** [re.sub(pattern, '', s)] for a pattern whose matches are never empty:
    scan from the left, drop each leftmost match, resume after it.  [skip]
    counts the characters of the current match still to drop. *)
Fixpoint re_sub_loop (match_at : str → option str) (skip : nat) (s : str) : str :=
  match s with
  | [] => []
  | c :: s' =>
      match skip with
      | S k => re_sub_loop match_at k s'
      | 0 =>
          match match_at s with
          | Some rest => re_sub_loop match_at (length s' - length rest) s'
          | None => c :: re_sub_loop match_at 0 s'
          end
      end
  end.

Definition re_sub (match_at : str → option str) (s : str) : str :=
  re_sub_loop match_at 0 s.

(** [text_for_case_check] of [_is_title_line] *)
Definition text_for_case_check (text_clean : str) : str :=
  Py.strip (re_sub match_parenthetical (re_sub match_biblical_ref text_clean)).

Definition uppercase_chars (s : str) : nat := length (List.filter Py.char_isupper s).
Definition lowercase_chars (s : str) : nat := length (List.filter Py.char_islower s).

(** [any(role in text for role in self.role_markers)] *)
Definition has_role_marker (text : str) : bool :=
  existsb (λ role, Py.contains role text) role_markers.

Section Classifier.
Context {F : Type} `{PyFloat F}.

Definition is_mostly_uppercase (text_clean : str) : bool :=
  let text_for_case_check := text_for_case_check text_clean in
  match text_for_case_check with
  | _ :: _ =>
      let uppercase_chars := uppercase_chars text_for_case_check in
      let lowercase_chars := lowercase_chars text_for_case_check in
      let total_letters := uppercase_chars + lowercase_chars in
      if 0 <? total_letters then
        let uppercase_ratio : F :=
          fdiv (of_int (Z.of_nat uppercase_chars)) (of_int (Z.of_nat total_letters)) in
        fle (literal 7 10) uppercase_ratio
      else true
  | [] => Py.isupper text_clean
  end.

Definition _is_title_line (text : str) (font_size : F) (is_pink : bool) : bool :=
  let text_clean := Py.strip text in
  is_mostly_uppercase text_clean
  && (4 <? length text_clean)
  && fle (literal 12 1) font_size
  && is_pink
  && negb (has_role_marker text_clean)
  && negb (_is_chord_line_text F text_clean)
  && negb (Py.contains (py "kapodaster") (Py.lower text_clean)).

Definition _is_kapodaster_line (text : str) (is_pink : bool) : bool :=
  let text_lower := Py.lower (Py.strip text) in
  is_pink && (Py.contains (py "kapodaster") text_lower || Py.contains (py "kapo") text_lower).

Definition _is_comment_line_enhanced (text : str) (is_pink : bool) : bool :=
  let text_clean := Py.strip text in
  if is_pink && Py.startswith text_clean (py "(") && Py.endswith text_clean (py ")")
  then true
  else if Py.startswith text_clean (py "bez:") then true
  else if Py.endswith text_clean (py ")")
          && Py.contains (py "blagoslovljen") (Py.lower text_clean)
          && negb (Py.startswith text_clean (py "SVET"))
  then true
  else if Py.startswith text_clean (py "*")
          && (Py.contains (py "zbor") (Py.lower text_clean)
              || Py.contains (py "odgovara") (Py.lower text_clean))
  then true
  else false.

(** The lists a line of the page is appended to. *)
Inductive LineClass :=
  | chord_lines | title_lines | kapodaster_lines | comment_lines | text_lines.

(** The [if]/[elif] chain of [_extract_span_data] on one line: [None] when
    the line is blank and skipped. *)
Definition classify_line (line_text : str) (font_size : F) (is_pink : bool)
  : option LineClass :=
  match Py.strip line_text with
  | [] => None
  | _ =>
      Some (if _is_chord_line_text F line_text then chord_lines
            else if _is_title_line line_text font_size is_pink then title_lines
            else if _is_kapodaster_line line_text is_pink then kapodaster_lines
            else if _is_comment_line_enhanced line_text is_pink then
              if is_pink && Py.startswith (Py.strip line_text) (py "(")
                 && Py.endswith (Py.strip line_text) (py ")")
              then text_lines      (* inline comment, kept in place *)
              else comment_lines
            else text_lines)
  end.

End Classifier.

(** *** Rendering a verse line ([_position_chords_in_lyrics]) *)

(** [f"[{chord.chord}]"] *)
Definition bracket (chord_name : str) : str := py "[" ++ chord_name ++ py "]".

(** One round of the loop; the state is [(result, lyric_pos)]. *)
Definition place_chord {F} (lyric_text : str) (st : str * nat) (c : ChordPosition F)
  : str * nat :=
  let '(result, lyric_pos) := st in
  let chord_pos := position c in
  if (Z.of_nat (length lyric_text) <=? chord_pos)%Z then
    let '(result, lyric_pos) :=
      if lyric_pos <? length lyric_text
      then (result ++ Py.slice_from lyric_text lyric_pos, length lyric_text)
      else (result, lyric_pos) in
    (result ++ bracket (chord c), lyric_pos)
  else
    let target_lyric_pos := chord_pos in
    let '(result, lyric_pos) :=
      if (Z.of_nat lyric_pos <? target_lyric_pos)%Z
      then (result ++ Py.slice lyric_text lyric_pos (Z.to_nat target_lyric_pos),
            Z.to_nat target_lyric_pos)
      else (result, lyric_pos) in
    (result ++ bracket (chord c), lyric_pos).

Definition _position_chords_in_lyrics {F} (chords : list (ChordPosition F))
    (lyric_text : str) : str :=
  match chords, Py.strip lyric_text with
  | [], _ => lyric_text
  | _ :: _, [] => concat (map (λ c, bracket (chord c)) chords)
  | _ :: _, _ :: _ =>
      let sorted_chords := sorted_by_key position chords in
      let '(result, lyric_pos) := foldl (place_chord lyric_text) ([], 0) sorted_chords in
      if lyric_pos <? length lyric_text
      then result ++ Py.slice_from lyric_text lyric_pos
      else result
  end.

End PyMuPDFSpanParser.
(** ** Title, kapodaster and comments of the span parser

    The methods of [PyMuPDFSpanParser] that make the title, the kapodaster
    and the comments of a song out of the classified lines. *)

Module PyMuPDFSpanSong.
Import PyMuPDFSpanParser.

Section Song.
Context {F : Type} `{PyFloat F}.

(** [sorted(lines, key=lambda x: x['y'])]: stable, lowest [y] first (the
    coordinates being numbers). *)
Fixpoint insert_by_y (x : LineData F) (l : list (LineData F)) : list (LineData F) :=
  match l with
  | [] => [x]
  | a :: l' => if flt (y a) (y x) then a :: insert_by_y x l' else x :: l
  end.

Definition sorted_by_y (l : list (LineData F)) : list (LineData F) :=
  foldr insert_by_y [] l.

Definition _extract_title_from_classified_lines (title_lines : list (LineData F))
    (song_name : str) : str :=
  match title_lines with
  | [] => match song_name with [] => py "Untitled Song" | _ => song_name end
  | _ =>
      let title_lines_sorted := sorted_by_y title_lines in
      default [] ((λ first, Py.strip (text first)) <$> head title_lines_sorted)
  end.

Definition _extract_kapodaster_from_classified_lines (kapodaster_lines : list (LineData F))
    : str :=
  match kapodaster_lines with
  | [] => []
  | _ =>
      let kapodaster_lines_sorted := sorted_by_y kapodaster_lines in
      default [] ((λ first, Py.strip (text first)) <$> head kapodaster_lines_sorted)
  end.

End Song.

(** ["\n" + " " * 20]: what joins the lines of a multi-line comment. *)
Definition continuation : str := "010"%char :: repeat " "%char 20.

(** [text.startswith('(') and not text.endswith(')')] *)
Definition opens_comment (text : str) : bool :=
  Py.startswith text (py "(") && negb (Py.endswith text (py ")")).

(** One round of the loop of [_extract_comments_from_classified_lines], on
    the pair [(combined_comments, current_comment)]. *)
Definition combine_step (st : list str * str) (line_text : str) : list str * str :=
  let '(combined_comments, current_comment) := st in
  let text := Py.strip line_text in
  if opens_comment text then (combined_comments, text)
  else if Py.startswith text (py "bez:")
          || (Py.endswith text (py ")")
              && match current_comment with [] => false | _ => true end)
  then
    match current_comment with
    | _ :: _ =>
        let current_comment := current_comment ++ continuation ++ text in
        if Py.endswith text (py ")")
        then (combined_comments ++ [current_comment], [])
        else (combined_comments, current_comment)
    | [] => (combined_comments ++ [text], [])
    end
  else
    match current_comment with
    | _ :: _ => (combined_comments ++ [current_comment; text], [])
    | [] => (combined_comments ++ [text], [])
    end.

Definition _extract_comments_from_classified_lines {F : Type} `{PyFloat F}
    (comment_lines : list (LineData F)) : list str :=
  match comment_lines with
  | [] => []
  | _ =>
      let comment_lines_sorted := sorted_by_y comment_lines in
      let '(combined_comments, current_comment) :=
        foldl combine_step ([], []) (map text comment_lines_sorted) in
      match current_comment with
      | _ :: _ => combined_comments ++ [current_comment]
      | [] => combined_comments
      end
  end.

End PyMuPDFSpanSong.


(** ** The hybrid parser ([HybridPreciseParser]) *)

Module HybridPreciseParser.
Import Arial.

Section Mapper.
Context {F : Type} `{PyFloat F}.

(** The loop of [find_char_position_at_x]; [i] is the index of the head of
    [chars], [end_position] is [len(text)]. *)
Fixpoint scan_chars (font_size relative_x : F) (chars : str) (i : Z) (current_x : F)
    (end_position : Z) : Z :=
  match chars with
  | [] => end_position
  | char :: chars' =>
      let char_width := get_char_width char font_size in
      if fle relative_x (fadd current_x (fdiv char_width (of_int 2))) then i
      else scan_chars font_size relative_x chars' (i + 1) (fadd current_x char_width)
             end_position
  end.

Definition calculate_text_width (text : str) (font_size : F) : F :=
  foldl (λ total_width char, fadd total_width (get_char_width char font_size))
    (of_int 0) text.

Definition find_char_position_at_x (text : str) (font_size target_x text_start_x : F) : Z :=
  if fle target_x text_start_x then 0%Z
  else
    let relative_x := fsub target_x text_start_x in
    scan_chars font_size relative_x text 0 (of_int 0) (Z.of_nat (length text)).

End Mapper.

End HybridPreciseParser.

(** ** The proportional mapper ([ProportionalMapper]) *)

Module ProportionalMapper.
Import ChordSystem.

Definition role_markers : list str := [py "K.+Z."; py "K."; py "Z."; py "P."].

Record ChordPosition := {
  chord : str;
  position : Z
}.

(** [""] when the line starts with no role marker *)
Definition _extract_role_marker (line : str) : str :=
  match List.find (λ role, Py.startswith (Py.strip line) role)
          (Py.sorted_by_len_desc role_markers) with
  | Some role => role
  | None => []
  end.

Definition _is_comment_line (line : str) : bool :=
  let line_clean := Py.strip line in
  Py.startswith line_clean (py "(")
  && (Py.contains (py "slijedi") (Py.lower line_clean)
      || Py.contains (py "bez:") (Py.lower line_clean)
      || Py.contains (py ")") line_clean).

(** The text the chords are mapped onto. *)
Definition text_content (text_line : str) : str :=
  let role_marker := _extract_role_marker text_line in
  match role_marker with
  | _ :: _ => Py.strip (drop (length role_marker) text_line)
  | [] => Py.strip text_line
  end.

(** What the scan keeps of a word of the chord line. *)
Definition keep_chord (chord_word : str) (chord_start : nat) : list (str * nat) :=
  if _looks_like_chord chord_word then [(chord_word, chord_start)] else [].

(** The two nested [while] loops of [map_chords_proportionally] over the
    chord line: [s] is [chord_line[i:]].  The inner loop reads the word that
    starts at [chord_start] and hands the rest of the line back to the outer
    loop. *)
Fixpoint scan_chord_line (s : str) (i : nat) : list (str * nat) :=
  match s with
  | [] => []
  | char :: s' =>
      if Py.isspace char then scan_chord_line s' (S i)
      else
        let chord_start := i in
        (fix read_word (chord_word : str) (s2 : str) (i2 : nat) {struct s2}
           : list (str * nat) :=
           match s2 with
           | c2 :: s2' =>
               if Py.isspace c2
               then keep_chord chord_word chord_start ++ scan_chord_line s2 i2
               else read_word (chord_word ++ [c2]) s2' (S i2)
           | [] => keep_chord chord_word chord_start
           end) [char] s' (S i)
  end.

(** The inner loop on its own, as the scan runs it. *)
Definition read_word (chord_start : nat) : str → str → nat → list (str * nat) :=
  fix read_word (chord_word : str) (s2 : str) (i2 : nat) {struct s2}
    : list (str * nat) :=
    match s2 with
    | c2 :: s2' =>
        if Py.isspace c2
        then keep_chord chord_word chord_start ++ scan_chord_line s2 i2
        else read_word (chord_word ++ [c2]) s2' (S i2)
    | [] => keep_chord chord_word chord_start
    end.

Section Mapper.
Context {F : Type} `{PyFloat F}.

(** The offset given to a chord found at [chord_pos]. *)
Definition text_position_of (effective_chord_length : nat) (text_content : str)
    (chord_pos : nat) : Z :=
  if 0 <? effective_chord_length then
    let proportion : F :=
      fdiv (of_int (Z.of_nat chord_pos)) (of_int (Z.of_nat effective_chord_length)) in
    let text_position :=
      to_int (fmul proportion (of_int (Z.of_nat (length text_content)))) in
    Z.max 0 (Z.min text_position (Z.of_nat (length text_content)))
  else 0%Z.

Definition map_chords_proportionally (chord_line text_line : str) : list ChordPosition :=
  let text_content := text_content text_line in
  let effective_chord_length := length (Py.rstrip chord_line) in
  let chord_positions := scan_chord_line chord_line 0 in
  let chords :=
    map (λ '(chord_word, chord_pos),
           {| chord := chord_word;
              position := text_position_of effective_chord_length text_content chord_pos |})
        chord_positions in
  sorted_by_key position chords.

(** The backward search of [_find_chords_with_proportional_mapping]:
    [search_above lines j] runs the loop body for [j-1], [j-2], ..., [0] and
    gives the index of the chord line it breaks on.  The indices read are
    below [current_index], hence in range. *)
Fixpoint search_above (pdftotext_lines : list str) (j : nat) : option nat :=
  match j with
  | 0 => None
  | S j' =>
      let line := default [] (pdftotext_lines !! j') in
      match Py.strip line with
      | [] => search_above pdftotext_lines j'
      | _ =>
          if _is_chord_line_text F line then Some j'
          else
            match _extract_role_marker line with
            | _ :: _ => None
            | [] =>
                if negb (_is_chord_line_text F line) && negb (_is_comment_line line)
                then None
                else search_above pdftotext_lines j'
            end
      end
  end.

(** [None] is the [IndexError] of [pdftotext_lines[current_index]]. *)
Definition _find_chords_with_proportional_mapping (pdftotext_lines : list str)
    (current_index : nat) : option (list ChordPosition) :=
  match pdftotext_lines !! current_index with
  | None => None
  | Some text_line =>
      Some match search_above pdftotext_lines current_index with
           | None => []
           | Some j =>
               let chord_line := default [] (pdftotext_lines !! j) in
               map_chords_proportionally chord_line text_line
           end
  end.

End Mapper.
#[global] Arguments search_above F {_} pdftotext_lines j.

(** [f"[{chord.chord}]"] *)
Definition bracket (chord_name : str) : str := py "[" ++ chord_name ++ py "]".

(** One round of the loop of [_position_chords_in_lyrics]; the state is
    [(result, lyric_pos)]. *)
Definition place_chord (lyric_text : str) (st : str * nat) (c : ChordPosition)
  : str * nat :=
  let '(result, lyric_pos) := st in
  let chord_pos := position c in
  let target_lyric_pos := Z.min chord_pos (Z.of_nat (length lyric_text)) in
  let '(result, lyric_pos) :=
    if (Z.of_nat lyric_pos <? target_lyric_pos)%Z
    then (result ++ Py.slice lyric_text lyric_pos (Z.to_nat target_lyric_pos),
          Z.to_nat target_lyric_pos)
    else (result, lyric_pos) in
  (result ++ bracket (chord c), lyric_pos).

Definition _position_chords_in_lyrics (chords : list ChordPosition) (lyric_text : str)
  : str :=
  match chords, Py.strip lyric_text with
  | [], _ => lyric_text
  | _ :: _, [] => concat (map (λ c, bracket (chord c)) chords)
  | _ :: _, _ :: _ =>
      let sorted_chords := sorted_by_key position chords in
      let '(result, lyric_pos) := foldl (place_chord lyric_text) ([], 0) sorted_chords in
      if lyric_pos <? length lyric_text
      then result ++ Py.slice_from lyric_text lyric_pos
      else result
  end.

End ProportionalMapper.
(** ** The song assembly of the proportional mapper

    The dataclasses of [proportional_mapper.py] and the methods of
    [ProportionalMapper] that find the title and the kapodaster line and
    build the verses. *)

Module ProportionalSong.
Import ChordSystem ProportionalMapper.

Record VerseLine := {
  text : str;
  chords : list ChordPosition;
  original_line : str
}.

Record Verse := {
  role : str;
  lines : list VerseLine
}.

Record Song := {
  title : str;
  kapodaster : str;
  verses : list Verse;
  comments : list str
}.

(** ['kapodaster' in line.lower() or 'kapo' in line.lower()] *)
Definition mentions_kapo (line : str) : bool :=
  Py.contains (py "kapodaster") (Py.lower line) || Py.contains (py "kapo") (Py.lower line).

(** The test of [_detect_title_from_pdftotext] on a line that is neither
    blank nor a kapodaster line. *)
Definition looks_like_title (line : str) : bool :=
  Py.isupper (Py.strip line)
  && (10 <? length (Py.strip line))
  && negb (existsb (λ role, Py.contains role line) role_markers).

(** The loop over [enumerate(lines[:10])]: the index and the title it
    breaks on. *)
Fixpoint title_loop (first_lines : list str) (i : nat) : option (nat * str) :=
  match first_lines with
  | [] => None
  | line :: rest =>
      match Py.strip line with
      | [] => title_loop rest (S i)
      | _ =>
          if mentions_kapo line then title_loop rest (S i)
          else if looks_like_title line then Some (i, Py.strip line)
          else title_loop rest (S i)
      end
  end.

Definition _detect_title_from_pdftotext (lines : list str) : str * list str :=
  match title_loop (take 10 lines) 0 with
  | Some (i, title) => (title, drop (S i) lines)
  | None => ([], lines)
  end.

(** The loop over [enumerate(lines[:5])]. *)
Fixpoint kapodaster_loop (first_lines : list str) (i : nat) : option (nat * str) :=
  match first_lines with
  | [] => None
  | line :: rest =>
      match Py.strip line with
      | [] => kapodaster_loop rest (S i)
      | _ =>
          if mentions_kapo line then Some (i, Py.strip line)
          else kapodaster_loop rest (S i)
      end
  end.

Definition _detect_kapodaster_from_pdftotext (lines : list str) : str * list str :=
  match kapodaster_loop (take 5 lines) 0 with
  | Some (i, kapodaster) => (kapodaster, drop (S i) lines)
  | None => ([], lines)
  end.

(** The local variables of [_parse_verses_with_proportional_mapping]. *)
Record BuilderState := {
  st_verses : list Verse;
  st_comments : list str;
  current_verse_lines : list VerseLine;
  current_role : str
}.

Definition initial_state : BuilderState :=
  {| st_verses := []; st_comments := []; current_verse_lines := []; current_role := [] |}.

(** [verses] after
    [if current_verse_lines and current_role: verses.append(Verse(...))] *)
Definition flush (st : BuilderState) : list Verse :=
  match current_verse_lines st, current_role st with
  | _ :: _, _ :: _ =>
      st_verses st ++ [{| role := current_role st; lines := current_verse_lines st |}]
  | _, _ => st_verses st
  end.

Section Builder.
Context {F : Type} `{PyFloat F}.

(** One round of the [while] loop, on line [i]; [None] is the [IndexError]
    of the chord lookup. *)
Definition builder_step (pdftotext_lines : list str) (st : BuilderState)
    (i : nat) (line : str) : option BuilderState :=
  match Py.strip line with
  | [] => Some st
  | _ =>
      if _is_comment_line line then
        Some {| st_verses := st_verses st;
                st_comments := st_comments st ++ [Py.strip line];
                current_verse_lines := current_verse_lines st;
                current_role := current_role st |}
      else
        let role_marker := _extract_role_marker line in
        match role_marker with
        | _ :: _ =>
            let verses := flush st in
            let text_after_role := Py.strip (drop (length role_marker) line) in
            match _find_chords_with_proportional_mapping (F:=F) pdftotext_lines i with
            | None => None
            | Some chords =>
                let verse_line :=
                  {| text := text_after_role; chords := chords; original_line := line |} in
                Some {| st_verses := verses;
                        st_comments := st_comments st;
                        current_verse_lines := [verse_line];
                        current_role := role_marker |}
            end
        | [] =>
            match current_role st with
            | _ :: _ =>
                if negb (_is_chord_line_text F line) then
                  match _find_chords_with_proportional_mapping (F:=F) pdftotext_lines i with
                  | None => None
                  | Some chords =>
                      let verse_line :=
                        {| text := Py.strip line; chords := chords;
                           original_line := line |} in
                      Some {| st_verses := st_verses st;
                              st_comments := st_comments st;
                              current_verse_lines := current_verse_lines st ++ [verse_line];
                              current_role := current_role st |}
                  end
                else Some st
            | [] => Some st
            end
        end
  end.

(** The [while i < len(pdftotext_lines)] loop: [rest] holds the lines from
    index [i] on. *)
Fixpoint builder_loop (pdftotext_lines rest : list str) (i : nat) (st : BuilderState)
  : option BuilderState :=
  match rest with
  | [] => Some st
  | line :: rest' =>
      match builder_step pdftotext_lines st i line with
      | None => None
      | Some st' => builder_loop pdftotext_lines rest' (S i) st'
      end
  end.

Definition _parse_verses_with_proportional_mapping (pdftotext_lines : list str)
  : option (list Verse * list str) :=
  match builder_loop pdftotext_lines pdftotext_lines 0 initial_state with
  | None => None
  | Some st => Some (flush st, st_comments st)
  end.

Definition _parse_with_proportional_mapping (pdftotext_lines : list str) (song_name : str)
  : option Song :=
  let '(title, content_lines) := _detect_title_from_pdftotext pdftotext_lines in
  let title :=
    match title with
    | [] => match song_name with [] => py "Untitled Song" | _ => song_name end
    | _ => title
    end in
  let '(kapodaster, content_lines) := _detect_kapodaster_from_pdftotext content_lines in
  match _parse_verses_with_proportional_mapping content_lines with
  | None => None
  | Some (verses, comments) =>
      Some {| title := title; kapodaster := kapodaster;
              verses := verses; comments := comments |}
  end.

End Builder.

End ProportionalSong.


(** ** The [pdftotext] parser ([PDFtoTextParser]) *)

Module PDFtoTextParser.
Import ChordSystem.

(** [_split_compound_chord], written over the membership test [valid] of the
    chord set so that the recursion equations are derived with the set kept
    abstract. *)
Section SplitCompound.
Variable valid : str → bool.

Definition splits_with (word : str) (i : nat) : bool :=
  valid (take i word) && valid (drop i word).

(** The first [i] of [range(1, len(word))] at which both parts are valid
    chords: where the [for] loop returns. *)
Definition first_split (word : str) : option nat :=
  List.find (splits_with word) (split_points word).

Lemma first_split_range (word : str) (i : nat) :
  first_split word = Some i → 1 ≤ i < length word.
Proof.
  unfold first_split, split_points. intros Hf.
  apply find_some in Hf as [Hin _]. apply in_seq in Hin. lia.
Qed.

Equations? split_compound (word : str) : list str by wf (length word) lt :=
split_compound word with inspect (valid word) := {
  | exist _ true _ => [word]
  | exist _ false _ with inspect (first_split word) := {
      | exist _ (Some i) Hi =>
          let left_part := take i word in
          let right_part := drop i word in
          let remaining_splits := split_compound right_part in
          left_part :: remaining_splits
      | exist _ None _ => [word] } }.
Proof. apply first_split_range in Hi. subst right_part. rewrite length_drop. lia. Qed.

End SplitCompound.

Definition _split_compound_chord (word : str) : list str :=
  split_compound is_valid_chord word.

Definition role_markers : list str := [py "K.+Z."; py "K."; py "Z."; py "P."].

Record ChordPosition := {
  chord : str;
  position : Z;
  end_position : Z
}.

Definition _is_comment_line (line : str) : bool :=
  let line_clean := Py.strip line in
  Py.startswith line_clean (py "(")
  && (Py.contains (py "slijedi") (Py.lower line_clean)
      || Py.contains (py "bez:") (Py.lower line_clean)
      || Py.contains (py ")") line_clean).

(** [""] when the line starts with no role marker *)
Definition _extract_role_marker (line : str) : str :=
  match List.find (λ role, Py.startswith (Py.strip line) role)
          (Py.sorted_by_len_desc role_markers) with
  | Some role => role
  | None => []
  end.

Definition _is_chord_line `{PyFloat F} (line : str) : bool :=
  match Py.strip line with
  | [] => false
  | _ =>
      let line_clean := Py.strip line in
      let words := Py.split line_clean in
      match words with
      | [] => false
      | _ => flt (literal 6 10)
               (fdiv (of_int (Z.of_nat (chord_count words)))
                     (of_int (Z.of_nat (length words))))
      end
  end.
#[global] Arguments _is_chord_line F {_} line.

(** The chords of a compound word, one after the other from [char_pos]. *)
Fixpoint compound_positions (split_chords : list str) (char_pos : nat) : list ChordPosition :=
  match split_chords with
  | [] => []
  | split_chord :: rest =>
      {| chord := split_chord;
         position := Z.of_nat char_pos;
         end_position := Z.of_nat (char_pos + length split_chord) |}
      :: compound_positions rest (char_pos + length split_chord)
  end.

(** What [_extract_chords_from_line] appends for a word found at
    [word_pos]. *)
Definition word_chords (word : str) (word_pos : nat) : list ChordPosition :=
  if _looks_like_chord word then
    let split_chords := _split_compound_chord word in
    if 1 <? length split_chords then compound_positions split_chords word_pos
    else [{| chord := word;
             position := Z.of_nat word_pos;
             end_position := Z.of_nat (word_pos + length word) |}]
  else [].

(** The loop over [words]; a word that [find] does not locate leaves
    [current_pos] where it is. *)
Fixpoint extract_loop (chord_line : str) (words : list str) (current_pos : nat)
  : list ChordPosition :=
  match words with
  | [] => []
  | word :: words' =>
      match Py.find chord_line word current_pos with
      | Some word_pos =>
          word_chords word word_pos
          ++ extract_loop chord_line words' (word_pos + length word)
      | None => extract_loop chord_line words' current_pos
      end
  end.

Definition _extract_chords_from_line (chord_line : str) : list ChordPosition :=
  extract_loop chord_line (Py.split chord_line) 0.

(** How the backward search of [_find_chord_line_above] ends. *)
Inductive SearchEnd :=
  | found_chord_line (j : nat)      (* [return chords] on line [j] *)
  | no_chord_line.                  (* [break], or the range is exhausted *)

(** The loop for [j-1], [j-2], ..., [0]; [None] is the [IndexError] of
    [lines[j]]. *)
Fixpoint search_above `{PyFloat F} (lines : list str) (j : nat) : option SearchEnd :=
  match j with
  | 0 => Some no_chord_line
  | S j' =>
      match lines !! j' with
      | None => None
      | Some line =>
          match Py.strip line with
          | [] => search_above lines j'
          | _ =>
              if _is_chord_line F line then Some (found_chord_line j')
              else
                match _extract_role_marker line with
                | _ :: _ => Some no_chord_line
                | [] =>
                    if negb (_is_chord_line F line) && negb (_is_comment_line line)
                    then Some no_chord_line
                    else search_above lines j'
                end
          end
      end
  end.
#[global] Arguments search_above F {_} lines j.

Definition _find_chord_line_above `{PyFloat F} (lines : list str) (current_index : nat)
  : option (list ChordPosition) :=
  match search_above F lines current_index with
  | None => None
  | Some (found_chord_line j) =>
      Some (_extract_chords_from_line (default [] (lines !! j)))
  | Some no_chord_line => Some []
  end.
#[global] Arguments _find_chord_line_above F {_} lines current_index.

End PDFtoTextParser.

(** ** The data model of the universal parser ([core/models.py]) *)

Module Models.

Inductive TextType :=
  | TITLE | ROLE_MARKER | VERSE_TEXT | CHORD_LINE | COMMENT | INLINE_COMMENT
  | KAPODASTER | UNKNOWN.

Record Chord (F : Type) := {
  chord : str;
  position : Z;
  pixel_x : F
}.
#[global] Arguments chord {F} _.
#[global] Arguments position {F} _.
#[global] Arguments pixel_x {F} _.

Record VerseLine (F : Type) := {
  text : str;
  chords : list (Chord F);
  original_line : str;
  line_type : TextType
}.
#[global] Arguments text {F} _.
#[global] Arguments chords {F} _.
#[global] Arguments original_line {F} _.
#[global] Arguments line_type {F} _.

(** [Chord.__str__] *)
Definition bracket (chord_name : str) : str := py "[" ++ chord_name ++ py "]".

(** One round of the loop of [VerseLine.to_chordpro]; the state is
    [(result, lyric_pos)]. *)
Definition place_chord {F} (text : str) (st : str * nat) (c : Chord F) : str * nat :=
  let '(result, lyric_pos) := st in
  let chord_pos := position c in
  if (Z.of_nat (length text) <=? chord_pos)%Z then
    let '(result, lyric_pos) :=
      if lyric_pos <? length text
      then (result ++ Py.slice_from text lyric_pos, length text)
      else (result, lyric_pos) in
    (result ++ bracket (chord c), lyric_pos)
  else
    let target_lyric_pos := chord_pos in
    let '(result, lyric_pos) :=
      if (Z.of_nat lyric_pos <? target_lyric_pos)%Z
      then (result ++ Py.slice text lyric_pos (Z.to_nat target_lyric_pos),
            Z.to_nat target_lyric_pos)
      else (result, lyric_pos) in
    (result ++ bracket (chord c), lyric_pos).

Definition to_chordpro {F} (self : VerseLine F) : str :=
  match chords self with
  | [] => text self
  | _ :: _ =>
      let sorted_chords := sorted_by_key position (chords self) in
      let '(result, lyric_pos) := foldl (place_chord (text self)) ([], 0) sorted_chords in
      if lyric_pos <? length (text self)
      then result ++ Py.slice_from (text self) lyric_pos
      else result
  end.

End Models.

(** ** Notions the specification uses *)

Module Spec.
Import Arial.

Section Direct.
Context {F : Type} `{PyFloat F}.

(** Left end of the advance interval of character [i] of [text]: the
    advances of the characters before it, accumulated from the left edge. *)
Definition advance_start (text : str) (font_size left : F) (i : nat) : F :=
  foldl (λ x c, fadd x (get_char_width c font_size)) left (take i text).

(** The midpoint of the advance interval of character [i] reaches or exceeds
    [x]. *)
Definition midpoint_reaches (x : F) (text : str) (font_size left : F) (i : nat) : bool :=
  match text !! i with
  | Some c =>
      fle x (fadd (advance_start text font_size left i)
                  (fdiv (get_char_width c font_size) (of_int 2)))
  | None => false
  end.

(** [r] is the index of the first character whose midpoint reaches or
    exceeds [x], or the text length when there is none. *)
Definition first_midpoint_index (x : F) (text : str) (font_size left : F) (r : nat) : Prop :=
  r ≤ length text
  ∧ (∀ j, j < r → midpoint_reaches x text font_size left j = false)
  ∧ (r < length text → midpoint_reaches x text font_size left r = true).

(** [x] clamped into the interval [[left, right]]: [x] itself when it lies
    in the interval, [right] when it lies beyond a right end that is beyond
    [left], and [left] otherwise (left of the interval, or an interval with
    nothing beyond [left]). *)
Definition clamped (x left right : F) : F :=
  if flt right x then (if flt left right then right else left)
  else if flt left x then x else left.

(** The direct pixel mapping as the specification states it, of a mapper
    that is given the chord's pixel x, the lyric text, the left edge and the
    width of the lyric run and the font size: the result is the index of the
    first character whose midpoint reaches or exceeds the clamped x, or the
    text length. *)
Definition direct_mapper_as_claimed (mapper : F → str → F → F → F → Z) : Prop :=
  ∀ (x : F) (text : str) (left width font_size : F),
    ∃ r : nat,
      mapper x text left width font_size = Z.of_nat r
      ∧ first_midpoint_index (clamped x left (fadd left width)) text font_size left r.

End Direct.

(** [out] is [text] with the tokens [toks] inserted, in this order, at some
    positions: deleting the inserted tokens from [out] gives back [text]. *)
Inductive Inserted : str → list str → str → Prop :=
  | Inserted_nil : Inserted [] [] []
  | Inserted_char c text toks out :
      Inserted text toks out → Inserted (c :: text) toks (c :: out)
  | Inserted_token tok text toks out :
      Inserted text toks out → Inserted text (tok :: toks) (tok ++ out).

(** [word] is a whitespace-delimited token of [line] that starts at index
    [i]: a maximal run of characters that are not whitespace. *)
Definition token_at (line : str) (i : nat) (word : str) : Prop :=
  word ≠ []
  ∧ Forall (λ c, Py.isspace c = false) word
  ∧ ∃ pre post, line = pre ++ word ++ post ∧ length pre = i
      ∧ (pre = [] ∨ ∃ pre' c, pre = pre' ++ [c] ∧ Py.isspace c = true)
      ∧ (post = [] ∨ ∃ c post', post = c :: post' ∧ Py.isspace c = true).

(** Python's [round]: the nearest integer, a tie going to the even one. *)
Definition round_half_even (x : Q) : Z :=
  let f := Qfloor x in
  match Qcompare (Qminus x (inject_Z f)) (1 # 2) with
  | Lt => f
  | Gt => (f + 1)%Z
  | Eq => if Z.even f then f else (f + 1)%Z
  end.

(** The offset the specification gives to a chord that starts at index [i]
    of a chord line of effective length [effective_length], over a lyric
    text of length [text_length]. *)
Definition rounded_offset (i effective_length text_length : nat) : Z :=
  let exact : Q :=
    Qmult (Qdiv (inject_Z (Z.of_nat i)) (inject_Z (Z.of_nat effective_length)))
          (inject_Z (Z.of_nat text_length)) in
  Z.max 0 (Z.min (round_half_even exact) (Z.of_nat text_length)).

(** The proportional offsets as the specification states them: every chord
    token of the chord line comes out at the rounded offset. *)
Definition proportional_offsets_rounded (F : Type) `{PyFloat F} : Prop :=
  ∀ (chord_line text_line word : str) (i : nat),
    token_at chord_line i word →
    ChordSystem._looks_like_chord word = true →
    {| ProportionalMapper.chord := word;
       ProportionalMapper.position :=
         rounded_offset i (length (Py.rstrip chord_line))
           (length (ProportionalMapper.text_content text_line)) |}
    ∈ ProportionalMapper.map_chords_proportionally (F:=F) chord_line text_line.

(** A line the verse builder of [ProportionalMapper] makes a verse line of:
    not blank, not a comment, and either starting with a role marker
    (RoleMarkerText) or not a chord line (PlainText). *)
Definition is_text_line (F : Type) `{PyFloat F} (line : str) : bool :=
  match Py.strip line with
  | [] => false
  | _ =>
      negb (ProportionalMapper._is_comment_line line)
      && match ProportionalMapper._extract_role_marker line with
         | _ :: _ => true
         | [] => negb (ChordSystem._is_chord_line_text F line)
         end
  end.

(** A line the verse builder of [ProportionalMapper] starts a verse on: not
    a comment, and starting (once stripped) with a role marker. *)
Definition starts_verse (line : str) : bool :=
  negb (ProportionalMapper._is_comment_line line)
  && match ProportionalMapper._extract_role_marker line with
     | [] => false
     | _ :: _ => true
     end.

End Spec.

(** * Properties *)

(** The chord set is kept folded in proofs: only evaluation opens it. *)
#[local] Opaque ChordSystem.valid_chords.

(** ** Arithmetic of the rational carrier *)

Lemma Qlt_bool_iff (a b : Q) : Qlt_bool a b = true ↔ (a < b)%Q.
Proof.
  unfold Qlt_bool. rewrite negb_true_iff.
  destruct (Qle_bool b a) eqn:E.
  - apply Qle_bool_iff in E. split; [discriminate | intros Hlt; exfalso; lra].
  - split; [intros _ | reflexivity].
    destruct (Qlt_le_dec a b) as [Hlt | Hle]; [exact Hlt |].
    apply Qle_bool_iff in Hle. congruence.
Qed.

Lemma Qlt_bool_false (a b : Q) : Qlt_bool a b = false ↔ (b <= a)%Q.
Proof.
  unfold Qlt_bool. rewrite negb_false_iff. apply Qle_bool_iff.
Qed.

Lemma font_units_pos (c : ascii) : (0 < Arial.font_units c)%Z.
Proof. destruct c as [[] [] [] [] [] [] [] []]; vm_compute; reflexivity. Qed.

Lemma get_char_width_nonneg (c : ascii) (font_size : Q) :
  (0 <= font_size)%Q → (0 <= Arial.get_char_width c font_size)%Q.
Proof.
  intros Hfs. unfold Arial.get_char_width. cbn [fmul fdiv of_int Q_float].
  apply Qmult_le_0_compat; [| exact Hfs].
  apply Qle_shift_div_l; [reflexivity |].
  pose proof (font_units_pos c) as Hpos.
  unfold Qle, inject_Z. cbn. lia.
Qed.

(** ** Sorting by an integer key *)

Section Sorting.
Context {A : Type} (key : A → Z).

Lemma insert_by_key_perm (x : A) (l : list A) : insert_by_key key x l ≡ₚ x :: l.
Proof.
  induction l as [| y l IH]; cbn; [reflexivity |].
  destruct (key y <? key x)%Z; [| reflexivity].
  rewrite IH. apply Permutation_swap.
Qed.

Lemma sorted_by_key_perm (l : list A) : sorted_by_key key l ≡ₚ l.
Proof.
  induction l as [| x l IH]; cbn; [reflexivity |].
  rewrite insert_by_key_perm. by rewrite IH.
Qed.

Lemma sorted_by_key_Forall (P : A → Prop) (l : list A) :
  Forall P l → Forall P (sorted_by_key key l).
Proof. intros Hl. by rewrite sorted_by_key_perm. Qed.

Lemma sorted_by_key_length (l : list A) : length (sorted_by_key key l) = length l.
Proof. by rewrite sorted_by_key_perm. Qed.

(** All keys equal: the stable sort leaves the list as it is. *)
Lemma sorted_by_key_constant (k : Z) (l : list A) :
  Forall (λ x, key x = k) l → sorted_by_key key l = l.
Proof.
  unfold sorted_by_key.
  induction 1 as [| x l Hx Hl IH]; cbn; [reflexivity |].
  rewrite IH. destruct Hl as [| y l Hy Hl]; cbn; [reflexivity |].
  rewrite Hx, Hy, Z.ltb_irrefl. reflexivity.
Qed.

End Sorting.

(** ** The direct pixel mapper *)

Section DirectMapper.
Context {F : Type} `{PyFloat F}.
Import PyMuPDFSpanParser.

Lemma advance_start_snoc (pre : str) (c : ascii) (rest : str) (font_size left : F) :
  Spec.advance_start (pre ++ c :: rest) font_size left (S (length pre))
  = fadd (Spec.advance_start (pre ++ c :: rest) font_size left (length pre))
         (Arial.get_char_width c font_size).
Proof.
  unfold Spec.advance_start.
  replace (S (length pre)) with (length (pre ++ [c])) by (rewrite length_app; cbn; lia).
  rewrite (cons_middle c pre rest), app_assoc, take_app_length.
  rewrite <- app_assoc. cbn [app].
  rewrite take_app_length. by rewrite foldl_app.
Qed.

(** The walk over the characters after [pre], started where the code is
    when it reaches them, stops at the first index whose midpoint reaches
    [x]. *)
Lemma walk_chars_first (x font_size left : F) (chars pre : str) :
  (∀ j, j < length pre →
        Spec.midpoint_reaches x (pre ++ chars) font_size left j = false) →
  ∃ r : nat,
    walk_chars x font_size chars (Z.of_nat (length pre))
      (Spec.advance_start (pre ++ chars) font_size left (length pre))
      (Z.of_nat (length pre)) = Z.of_nat r
    ∧ Spec.first_midpoint_index x (pre ++ chars) font_size left r.
Proof.
  revert pre. induction chars as [| c chars IH]; intros pre Hpre.
  - exists (length pre). cbn. split; [reflexivity |].
    rewrite app_nil_r in *. split; [lia |]. split; [exact Hpre | lia].
  - cbn [walk_chars].
    destruct (fle x _) eqn:Hreach.
    + exists (length pre). split; [reflexivity |].
      split; [rewrite length_app; cbn; lia |]. split; [exact Hpre |].
      intros _. unfold Spec.midpoint_reaches.
      rewrite lookup_app_r, Nat.sub_diag by lia. exact Hreach.
    + specialize (IH (pre ++ [c])).
      rewrite <- app_assoc in IH. cbn [app] in IH.
      rewrite length_app in IH. cbn [length] in IH.
      rewrite Nat.add_1_r in IH. rewrite advance_start_snoc in IH.
      replace (Z.of_nat (length pre) + 1)%Z with (Z.of_nat (S (length pre))) by lia.
      apply IH. intros j Hj.
      destruct (decide (j = length pre)) as [-> | Hne]; [| apply Hpre; lia].
      unfold Spec.midpoint_reaches.
      rewrite lookup_app_r, Nat.sub_diag by lia. exact Hreach.
Qed.

(** With a span of non-zero width the mapper returns the first index whose
    midpoint reaches the clamped position, whatever the arithmetic. *)
Lemma map_chord_first_midpoint_nonzero_width
    (chord_pixel_x chord_span_start chord_span_width : F) (verse_text : str)
    (verse_span_start verse_span_width font_size : F) :
  feq verse_span_width (of_int 0) = false →
  ∃ r : nat,
    map_chord_to_verse_position chord_pixel_x chord_span_start chord_span_width
      verse_text verse_span_start verse_span_width font_size = Z.of_nat r
    ∧ Spec.first_midpoint_index
        (clamp_to_span chord_pixel_x verse_span_start verse_span_width)
        verse_text font_size verse_span_start r.
Proof.
  intros Hw. unfold map_chord_to_verse_position. rewrite Hw.
  destruct (walk_chars_first
              (clamp_to_span chord_pixel_x verse_span_start verse_span_width)
              font_size verse_span_start verse_text []) as (r & Hr & Hfirst).
  { intros j Hj. cbn in Hj. lia. }
  cbn [app length] in Hr, Hfirst. unfold Spec.advance_start in Hr.
  rewrite take_0 in Hr. cbn [foldl] in Hr. change (Z.of_nat 0) with 0%Z in Hr.
  exists r. split; [| exact Hfirst].
  cbv zeta. rewrite Hr. destruct Hfirst as [Hle _]. lia.
Qed.

Lemma map_chord_in_bounds
    (chord_pixel_x chord_span_start chord_span_width : F) (verse_text : str)
    (verse_span_start verse_span_width font_size : F) :
  (0 ≤ map_chord_to_verse_position chord_pixel_x chord_span_start chord_span_width
         verse_text verse_span_start verse_span_width font_size
     ≤ Z.of_nat (length verse_text))%Z.
Proof.
  unfold map_chord_to_verse_position.
  destruct (feq verse_span_width (of_int 0)); lia.
Qed.

End DirectMapper.

Section DirectMapperAnyCarrier.
Context {F : Type} `{PyFloat F}.
Import PyMuPDFSpanParser HybridPreciseParser.

(** The clamp of the code is the clamp into [[left, right]]. *)
Lemma clamp_to_span_clamped (chord_pixel_x verse_span_start verse_span_width : F) :
  clamp_to_span chord_pixel_x verse_span_start verse_span_width
  = Spec.clamped chord_pixel_x verse_span_start (fadd verse_span_start verse_span_width).
Proof.
  unfold clamp_to_span, Spec.clamped, fmax, fmin.
  destruct (flt (fadd verse_span_start verse_span_width) chord_pixel_x); reflexivity.
Qed.

(** The loop of the hybrid parser over the characters after [pre], started
    where the code is when it reaches them, stops at the first index whose
    midpoint reaches [x]. *)
Lemma scan_chars_first (x font_size left : F) (chars pre : str) :
  (∀ j, j < length pre →
        Spec.midpoint_reaches x (pre ++ chars) font_size left j = false) →
  ∃ r : nat,
    scan_chars font_size x chars (Z.of_nat (length pre))
      (Spec.advance_start (pre ++ chars) font_size left (length pre))
      (Z.of_nat (length (pre ++ chars))) = Z.of_nat r
    ∧ Spec.first_midpoint_index x (pre ++ chars) font_size left r.
Proof.
  revert pre. induction chars as [| c chars IH]; intros pre Hpre.
  - exists (length pre). cbn [scan_chars]. rewrite app_nil_r in *.
    split; [reflexivity |]. split; [lia |]. split; [exact Hpre | lia].
  - cbn [scan_chars].
    destruct (fle x _) eqn:Hreach.
    + exists (length pre). split; [reflexivity |].
      split; [rewrite length_app; cbn; lia |]. split; [exact Hpre |].
      intros _. unfold Spec.midpoint_reaches.
      rewrite lookup_app_r, Nat.sub_diag by lia. exact Hreach.
    + specialize (IH (pre ++ [c])).
      rewrite <- app_assoc in IH. cbn [app] in IH.
      rewrite length_app in IH. cbn [length] in IH.
      rewrite Nat.add_1_r in IH. rewrite advance_start_snoc in IH.
      replace (Z.of_nat (length pre) + 1)%Z with (Z.of_nat (S (length pre))) by lia.
      apply IH. intros j Hj.
      destruct (decide (j = length pre)) as [-> | Hne]; [| apply Hpre; lia].
      unfold Spec.midpoint_reaches.
      rewrite lookup_app_r, Nat.sub_diag by lia. exact Hreach.
Qed.

Lemma find_char_position_cases (text : str) (font_size target_x text_start_x : F) :
  if fle target_x text_start_x
  then find_char_position_at_x text font_size target_x text_start_x = 0%Z
  else ∃ r : nat,
         find_char_position_at_x text font_size target_x text_start_x = Z.of_nat r
         ∧ Spec.first_midpoint_index (fsub target_x text_start_x) text font_size
             (of_int 0) r.
Proof.
  unfold find_char_position_at_x.
  destruct (fle target_x text_start_x); [reflexivity |].
  destruct (scan_chars_first (fsub target_x text_start_x) font_size (of_int 0) text [])
    as (r & Hr & Hfirst).
  { intros j Hj. cbn in Hj. lia. }
  cbn [app length] in Hr, Hfirst. unfold Spec.advance_start in Hr.
  rewrite take_0 in Hr. cbn [foldl] in Hr. change (Z.of_nat 0) with 0%Z in Hr.
  cbv zeta. exists r. split; [exact Hr | exact Hfirst].
Qed.

(** C2, as amended.  In the arithmetic the code runs (any carrier, binary64
    among them), for every chord pixel x, lyric text, left edge and width of
    the lyric run and font size: [map_chord_to_verse_position] returns 0
    when the width of the run is zero; otherwise it clamps x into the run's
    [[left, right]] interval and returns the index of the first character
    whose advance-interval midpoint, accumulated from the left edge, reaches
    or exceeds the clamped x, or the text length when no midpoint does.
    [find_char_position_at_x] is given no width and has no right end to
    clamp to: it returns 0 for an x at or left of the text start, and
    otherwise the index of the first character whose midpoint, accumulated
    from 0, reaches or exceeds x minus the text start, or the text
    length. *)
Theorem direct_mapper_first_midpoint :
  (∀ (chord_pixel_x chord_span_start chord_span_width : F) (verse_text : str)
     (verse_span_start verse_span_width font_size : F),
     if feq verse_span_width (of_int 0)
     then map_chord_to_verse_position chord_pixel_x chord_span_start chord_span_width
            verse_text verse_span_start verse_span_width font_size = 0%Z
     else ∃ r : nat,
            map_chord_to_verse_position chord_pixel_x chord_span_start chord_span_width
              verse_text verse_span_start verse_span_width font_size = Z.of_nat r
            ∧ Spec.first_midpoint_index
                (Spec.clamped chord_pixel_x verse_span_start
                   (fadd verse_span_start verse_span_width))
                verse_text font_size verse_span_start r)
  ∧ (∀ (text : str) (font_size target_x text_start_x : F),
       if fle target_x text_start_x
       then find_char_position_at_x text font_size target_x text_start_x = 0%Z
       else ∃ r : nat,
              find_char_position_at_x text font_size target_x text_start_x = Z.of_nat r
              ∧ Spec.first_midpoint_index (fsub target_x text_start_x) text font_size
                  (of_int 0) r).
Proof.
  split.
  - intros x cs cw text left w fs.
    destruct (feq w (of_int 0)) eqn:Hw.
    + unfold map_chord_to_verse_position. by rewrite Hw.
    + rewrite <- clamp_to_span_clamped.
      by apply map_chord_first_midpoint_nonzero_width.
  - apply find_char_position_cases.
Qed.

End DirectMapperAnyCarrier.

(** C2 as the specification states it fails in two places.  With a lyric
    run of zero width the mapper of the span parser returns 0 without
    looking at the text: at a negative font size every midpoint lies left
    of the run, so the index the claim describes is the text length (2),
    not 0.  And the mapper of the hybrid parser does not clamp on the
    right: for a run from 50 to 70 and a chord at x = 500 the claim
    describes the first midpoint that reaches 70 (index 4 of "Slava Bogu"
    at 11pt), while the code returns the text length (10).  Both in exact
    arithmetic and in binary64. *)
Lemma direct_mapper_claim_fails :
  let span_mapper (F : Type) (PF : PyFloat F) (x : F) (text : str) (left width fs : F) :=
    PyMuPDFSpanParser.map_chord_to_verse_position x left width text left width fs in
  let hybrid_mapper (F : Type) (PF : PyFloat F) (x : F) (text : str) (left width fs : F) :=
    HybridPreciseParser.find_char_position_at_x text fs x left in
  ¬ Spec.direct_mapper_as_claimed (span_mapper Q Q_float)
  ∧ ¬ Spec.direct_mapper_as_claimed (span_mapper float binary64_float)
  ∧ ¬ Spec.direct_mapper_as_claimed (hybrid_mapper Q Q_float)
  ∧ ¬ Spec.direct_mapper_as_claimed (hybrid_mapper float binary64_float).
Proof.
  intros span_mapper hybrid_mapper. repeat split.
  - intros Hclaim.
    destruct (Hclaim 50%Q (py "ab") 50%Q 0%Q (-11)%Q) as (r & Hr & _ & _ & Hat).
    assert (span_mapper Q Q_float 50%Q (py "ab") 50%Q 0%Q (-11)%Q = 0%Z) as Hcode
      by (vm_compute; reflexivity).
    rewrite Hcode in Hr. assert (r = 0) as -> by lia.
    specialize (Hat ltac:(cbn; lia)). vm_compute in Hat. discriminate Hat.
  - intros Hclaim.
    destruct (Hclaim (of_int 50) (py "ab") (of_int 50) (of_int 0) (of_int (-11)))
      as (r & Hr & _ & _ & Hat).
    assert (span_mapper float binary64_float (of_int 50) (py "ab") (of_int 50) (of_int 0)
              (of_int (-11)) = 0%Z) as Hcode by (vm_compute; reflexivity).
    rewrite Hcode in Hr. assert (r = 0) as -> by lia.
    specialize (Hat ltac:(cbn; lia)). vm_compute in Hat. discriminate Hat.
  - intros Hclaim.
    destruct (Hclaim 500%Q (py "Slava Bogu") 50%Q 20%Q 11%Q) as (r & Hr & _ & Hbefore & _).
    assert (hybrid_mapper Q Q_float 500%Q (py "Slava Bogu") 50%Q 20%Q 11%Q = 10%Z) as Hcode
      by (vm_compute; reflexivity).
    rewrite Hcode in Hr. assert (r = 10) as -> by lia.
    specialize (Hbefore 4 ltac:(lia)). vm_compute in Hbefore. discriminate Hbefore.
  - intros Hclaim.
    destruct (Hclaim (of_int 500) (py "Slava Bogu") (of_int 50) (of_int 20) (of_int 11))
      as (r & Hr & _ & Hbefore & _).
    assert (hybrid_mapper float binary64_float (of_int 500) (py "Slava Bogu") (of_int 50)
              (of_int 20) (of_int 11) = 10%Z) as Hcode by (vm_compute; reflexivity).
    rewrite Hcode in Hr. assert (r = 10) as -> by lia.
    specialize (Hbefore 4 ltac:(lia)). vm_compute in Hbefore. discriminate Hbefore.
Qed.

Section DirectMapperExact.
Import PyMuPDFSpanParser.

Lemma clamp_to_span_bounds (x left w : Q) :
  (0 <= w)%Q →
  (left <= clamp_to_span x left w <= left + w)%Q
  ∧ ((left <= x <= left + w)%Q → clamp_to_span x left w == x).
Proof.
  intros Hw. unfold clamp_to_span, fmax, fmin. cbn [flt fadd Q_float].
  destruct (Qlt_bool (left + w) x) eqn:E1.
  - apply Qlt_bool_iff in E1.
    destruct (Qlt_bool left (left + w)) eqn:E2.
    + apply Qlt_bool_iff in E2. split; [lra | intros; lra].
    + apply Qlt_bool_false in E2. split; [lra | intros; lra].
  - apply Qlt_bool_false in E1.
    destruct (Qlt_bool left x) eqn:E2.
    + apply Qlt_bool_iff in E2. split; [lra | intros; lra].
    + apply Qlt_bool_false in E2. split; [lra | intros; lra].
Qed.

End DirectMapperExact.

(** ** The chord lookup of the span parser *)

Section SpanLookup.
Context {F : Type} `{PyFloat F}.
Import PyMuPDFSpanParser.

Lemma closest_step_fold (text_y : F) (chord_lines : list (LineData F))
    (st : option (F * LineData F)) (d : F) (best : LineData F) :
  foldl (closest_step text_y) st chord_lines = Some (d, best) →
  st = Some (d, best) ∨ (best ∈ chord_lines ∧ flt (y best) text_y = true).
Proof.
  revert st. induction chord_lines as [| cl cls IH]; intros st Hfold; cbn in Hfold.
  - by left.
  - apply IH in Hfold as [Hst | [Hin Habove]].
    + unfold closest_step in Hst.
      destruct (flt (y cl) text_y) eqn:Habove; [| by left].
      destruct (match st with None => true | Some (m, _) => flt (fsub text_y (y cl)) m end);
        [| by left].
      injection Hst as <- <-. right. split; [left | exact Habove].
    + right. split; [by right | exact Habove].
Qed.

Lemma closest_chord_line_above_elem (text_y : F) (chord_lines : list (LineData F))
    (best : LineData F) :
  closest_chord_line_above text_y chord_lines = Some best →
  best ∈ chord_lines ∧ flt (y best) text_y = true.
Proof.
  unfold closest_chord_line_above. intros Hbest.
  destruct (foldl _ _ _) as [[d b] |] eqn:Hfold; [| discriminate].
  cbn in Hbest. injection Hbest as ->.
  apply closest_step_fold in Hfold as [? | ?]; [discriminate | done].
Qed.

(** When every chord line above the lyric line is farther than the maximum
    distance, the lookup returns no chord, whatever the arithmetic. *)
Lemma no_chords_when_all_far (text_line_data : LineData F)
    (chord_lines : list (LineData F)) :
  (∀ cl, cl ∈ chord_lines → flt (y cl) (y text_line_data) = true →
         flt (literal 18 1) (fsub (y text_line_data) (y cl)) = true) →
  _find_chords_with_span_positioning text_line_data chord_lines = [].
Proof.
  intros Hfar. unfold _find_chords_with_span_positioning.
  destruct (closest_chord_line_above _ _) as [best |] eqn:Hbest; [| reflexivity].
  apply closest_chord_line_above_elem in Hbest as [Hin Habove].
  by rewrite (Hfar best Hin Habove).
Qed.

(** The lookup returns one entry for each chord located in the chord line
    it selects. *)
Lemma find_chords_positions (text_line_data : LineData F)
    (chord_lines : list (LineData F)) :
  _find_chords_with_span_positioning text_line_data chord_lines = []
  ∨ ∃ best, best ∈ chord_lines
      ∧ _find_chords_with_span_positioning text_line_data chord_lines
        ≡ₚ map_positions best text_line_data
             (find_chord_positions_in_span (text best) (x_start best) (width best)).
Proof.
  unfold _find_chords_with_span_positioning.
  destruct (closest_chord_line_above _ _) as [best |] eqn:Hbest; [| by left].
  apply closest_chord_line_above_elem in Hbest as [Hin _].
  destruct (flt _ _); [by left |].
  right. exists best. split; [exact Hin | apply sorted_by_key_perm].
Qed.

(** C6. For every position-mapping input whose lyric span has zero width the
    position mapper returns offset 0; the function is total, and the lookup
    that calls it gives offset 0 to every chord of the line. *)
Theorem degenerate_span_maps_to_zero
    (chord_pixel_x chord_span_start chord_span_width : F) (verse_text : str)
    (verse_span_start verse_span_width font_size : F) :
  feq verse_span_width (of_int 0) = true →
  map_chord_to_verse_position chord_pixel_x chord_span_start chord_span_width
    verse_text verse_span_start verse_span_width font_size = 0%Z
  ∧ ∀ (text_line_data : LineData F) (chord_lines : list (LineData F)),
      width text_line_data = verse_span_width →
      Forall (λ c, position c = 0%Z)
        (_find_chords_with_span_positioning text_line_data chord_lines).
Proof.
  intros Hw. split.
  - unfold map_chord_to_verse_position. by rewrite Hw.
  - intros tl cls Htl.
    destruct (find_chords_positions tl cls) as [-> | (best & _ & ->)]; [constructor |].
    unfold map_positions. apply Forall_map, Forall_forall. intros [name px] _. cbn.
    unfold map_chord_to_verse_position. by rewrite Htl, Hw.
Qed.

End SpanLookup.

Lemma degenerate_span_maps_to_zero_witness :
  feq (0%Q) (of_int 0) = true
  ∧ PyMuPDFSpanParser.map_chord_to_verse_position 70%Q 50%Q 40%Q (py "Slava Bogu")
      50%Q 0%Q 11%Q = 0%Z.
Proof.
  split; [reflexivity |].
  exact (proj1 (degenerate_span_maps_to_zero 70%Q 50%Q 40%Q (py "Slava Bogu")
                  50%Q 0%Q 11%Q eq_refl)).
Defined.

Section SpanLookupExact.
Import PyMuPDFSpanParser.

(** In exact arithmetic "the nearest chord line above is farther than 18"
    says the same as "every chord line above is": no chord is attached. *)
Lemma far_nearest_chord_line_exact
    (text_line_data nearest : LineData Q) (chord_lines : list (LineData Q)) :
  nearest ∈ chord_lines →
  (y nearest < y text_line_data)%Q →
  (∀ cl, cl ∈ chord_lines → (y cl < y text_line_data)%Q →
         (y text_line_data - y nearest <= y text_line_data - y cl)%Q) →
  (18 < y text_line_data - y nearest)%Q →
  _find_chords_with_span_positioning text_line_data chord_lines = [].
Proof.
  intros Hin Habove Hnearest Hfar.
  apply no_chords_when_all_far. intros cl Hcl Hcl_above.
  cbn [flt fsub Q_float] in *. apply Qlt_bool_iff in Hcl_above.
  apply Qlt_bool_iff. specialize (Hnearest cl Hcl Hcl_above).
  unfold literal. cbn [fdiv of_int Q_float].
  assert (inject_Z 18 / inject_Z 1 == 18)%Q as -> by reflexivity. lra.
Qed.

End SpanLookupExact.

Section SpanLookupFar.
Context {F : Type} `{PyFloat F}.
Import PyMuPDFSpanParser.

(** C5. In the arithmetic the code runs (any carrier, binary64 among them):
    for every lyric line whose nearest chord line above lies farther than
    the maximum vertical distance (18), that is, every chord line above it
    is at a distance [text_y - chord_y] that compares greater than 18, the
    chord lookup returns the empty list, and the verse line built from it
    has no chords.  The lookup is a total function: there is no error to
    raise. *)
Theorem far_chord_line_gives_no_chords
    (text_line_data : LineData F) (chord_lines : list (LineData F)) :
  (∀ cl, cl ∈ chord_lines → flt (y cl) (y text_line_data) = true →
         flt (literal 18 1) (fsub (y text_line_data) (y cl)) = true) →
  _find_chords_with_span_positioning text_line_data chord_lines = []
  ∧ verse_chords (default_verse_line text_line_data chord_lines) = [].
Proof.
  intros Hfar.
  assert (_find_chords_with_span_positioning text_line_data chord_lines = []) as Hnone.
  { unfold _find_chords_with_span_positioning.
    destruct (closest_chord_line_above _ _) as [best |] eqn:Hbest; [| reflexivity].
    apply closest_chord_line_above_elem in Hbest as [Hin Habove].
    by rewrite (Hfar best Hin Habove). }
  split; [exact Hnone |].
  unfold default_verse_line. rewrite Hnone. by destruct (_ && _ && _).
Qed.

End SpanLookupFar.

Lemma far_chord_line_gives_no_chords_witness :
  let line (t : str) (top : Z) : PyMuPDFSpanParser.LineData float :=
    {| PyMuPDFSpanParser.text := t; PyMuPDFSpanParser.text_content := t;
       PyMuPDFSpanParser.x_start := of_int 50; PyMuPDFSpanParser.width := of_int 60;
       PyMuPDFSpanParser.y := of_int top; PyMuPDFSpanParser.font_size := of_int 11;
       PyMuPDFSpanParser.is_pink := false |} in
  PyMuPDFSpanParser._find_chords_with_span_positioning
    (line (py "Slava Bogu") 100%Z) [line (py "G C7") 70%Z] = []
  ∧ PyMuPDFSpanParser.verse_chords
      (PyMuPDFSpanParser.default_verse_line
         (line (py "Slava Bogu") 100%Z) [line (py "G C7") 70%Z]) = [].
Proof.
  intros line.
  apply (far_chord_line_gives_no_chords (line (py "Slava Bogu") 100%Z)
           [line (py "G C7") 70%Z]).
  intros cl Hcl _. apply list_elem_of_singleton in Hcl as ->.
  vm_compute. reflexivity.
Defined.

(** The threshold is compared with the distance the code computes.  For a
    lyric line at y = 20 and a chord line at y = 2 - 2^-52 the exact
    distance, 18 + 2^-52, is greater than 18 and exact arithmetic attaches
    nothing; in binary64 the subtraction rounds to 18.0, which is not
    greater than 18.0, and the chords are attached. *)
Example computed_distance_decides :
  let lookup (F : Type) (PF : PyFloat F) :=
    let line (t : str) (top : F) : PyMuPDFSpanParser.LineData F :=
      {| PyMuPDFSpanParser.text := t; PyMuPDFSpanParser.text_content := t;
         PyMuPDFSpanParser.x_start := of_int 50; PyMuPDFSpanParser.width := of_int 60;
         PyMuPDFSpanParser.y := top; PyMuPDFSpanParser.font_size := of_int 11;
         PyMuPDFSpanParser.is_pink := false |} in
    map PyMuPDFSpanParser.chord
      (PyMuPDFSpanParser._find_chords_with_span_positioning
         (line (py "Slava Bogu") (of_int 20))
         [line (py "G C7")
            (fsub (of_int 2) (fdiv (of_int 1) (of_int 4503599627370496)))]) in
  lookup Q Q_float = [] ∧ lookup float binary64_float = [py "G"; py "C7"].
Proof. vm_compute. split; reflexivity. Qed.

(** ** Splitting compound chords *)

Section SplitCompound.
Import ChordSystem PDFtoTextParser.

Lemma split_compound_unfold (valid : str → bool) (word : str) :
  split_compound valid word
  = if valid word then [word]
    else match first_split valid word with
         | Some i => take i word :: split_compound valid (drop i word)
         | None => [word]
         end.
Proof.
  rewrite split_compound_equation_1.
  unfold split_compound_unfold_clause_1.
  destruct (inspect (valid word)) as [[] Hv]; [by rewrite Hv |].
  unfold split_compound_unfold_clause_1_clause_2.
  destruct (inspect (first_split valid word)) as [[i |] Hi]; by rewrite Hv, Hi.
Qed.

(** [List.find] over the split points returns the least index that
    qualifies. *)
Lemma find_seq_least (p : nat → bool) (start len i : nat) :
  List.find p (seq start len) = Some i →
  start ≤ i < start + len ∧ p i = true ∧ ∀ j, start ≤ j < i → p j = false.
Proof.
  revert start. induction len as [| len IH]; intros start Hfind; cbn in Hfind.
  - discriminate.
  - destruct (p start) eqn:Hp.
    + injection Hfind as <-. split; [lia |]. split; [exact Hp | intros j Hj; lia].
    + apply IH in Hfind as (Hrange & Hi & Hleast).
      split; [lia |]. split; [exact Hi |]. intros j Hj.
      destruct (decide (j = start)) as [-> | Hne]; [exact Hp | apply Hleast; lia].
Qed.

Lemma find_seq_some (p : nat → bool) (start len i : nat) :
  start ≤ i < start + len → p i = true → is_Some (List.find p (seq start len)).
Proof.
  intros Hrange Hi.
  destruct (List.find p (seq start len)) eqn:Hfind; [by eexists |].
  exfalso. eapply find_none in Hfind; [| apply in_seq; exact Hrange]. congruence.
Qed.

(** C9. For every token that is not itself a valid chord but splits at some
    internal index into two valid chords, the split points are tried in
    increasing order and the first (leftmost) index at which both parts are
    valid chords is the one accepted: the token is split there, and (having
    no space in it) it is recognised as a chord. *)
Theorem compound_chord_split_leftmost (word : str) (i : nat) :
  is_valid_chord word = false →
  0 < i < length word →
  splits_at word i = true →
  ∃ i0, 0 < i0 ≤ i
    ∧ splits_at word i0 = true
    ∧ (∀ j, 0 < j < i0 → splits_at word j = false)
    ∧ _split_compound_chord word = [take i0 word; drop i0 word]
    ∧ (Py.has_char " " word = false → _looks_like_chord word = true).
Proof.
  intros Hword Hi Hsplit.
  destruct (find_seq_some (splits_at word) 1 (length word - 1) i) as [i0 Hfind];
    [lia | exact Hsplit |].
  pose proof (find_seq_least _ _ _ _ Hfind) as (Hrange & Hi0 & Hleast).
  exists i0. split.
  { split; [lia |]. destruct (decide (i0 ≤ i)) as [? | Hgt]; [done |].
    rewrite Hleast in Hsplit by lia. discriminate Hsplit. }
  split; [exact Hi0 |]. split; [intros j Hj; apply Hleast; lia |]. split.
  - unfold _split_compound_chord. rewrite split_compound_unfold, Hword.
    change (first_split is_valid_chord word)
      with (List.find (splits_at word) (seq 1 (length word - 1))).
    rewrite Hfind.
    rewrite (split_compound_unfold _ (drop i0 word)).
    unfold splits_at in Hi0. apply andb_true_iff in Hi0 as [_ ->]. reflexivity.
  - intros Hspace. unfold _looks_like_chord. rewrite Hword, Hspace.
    destruct (1 <? length word) eqn:Hlen; [| apply Nat.ltb_ge in Hlen; lia].
    apply existsb_exists. exists i0. split; [| exact Hi0].
    apply in_seq. lia.
Qed.

End SplitCompound.

Lemma compound_chord_split_leftmost_witness :
  ∃ i0, 0 < i0 ≤ 1
    ∧ ChordSystem.splits_at (py "aa7") i0 = true
    ∧ (∀ j, 0 < j < i0 → ChordSystem.splits_at (py "aa7") j = false)
    ∧ PDFtoTextParser._split_compound_chord (py "aa7")
      = [take i0 (py "aa7"); drop i0 (py "aa7")]
    ∧ (Py.has_char " " (py "aa7") = false
       → ChordSystem._looks_like_chord (py "aa7") = true).
Proof.
  apply (compound_chord_split_leftmost (py "aa7") 1).
  - vm_compute. reflexivity.
  - vm_compute. lia.
  - vm_compute. reflexivity.
Defined.

(** ** Rendering a line with its chords *)

Section Inserted.
Import Spec.

Lemma Inserted_text (text : str) : Inserted text [] text.
Proof. induction text; by constructor. Qed.

Lemma Inserted_one_token (tok : str) : Inserted [] [tok] tok.
Proof.
  rewrite <- (app_nil_r tok) at 2. apply Inserted_token, Inserted_nil.
Qed.

Lemma Inserted_app (t1 t2 : str) (ts1 ts2 : list str) (o1 o2 : str) :
  Inserted t1 ts1 o1 → Inserted t2 ts2 o2 →
  Inserted (t1 ++ t2) (ts1 ++ ts2) (o1 ++ o2).
Proof.
  intros H1 H2. induction H1 as [| c t ts o _ IH | tok t ts o _ IH]; cbn.
  - exact H2.
  - by constructor.
  - rewrite <- app_assoc. by constructor.
Qed.

(** Only tokens: the output is their concatenation. *)
Lemma Inserted_tokens_only (toks : list str) : Inserted [] toks (concat toks).
Proof. induction toks; cbn; by constructor. Qed.

Lemma slice_app (text : str) (a b c : nat) :
  a ≤ b → b ≤ c →
  Py.slice text a b ++ Py.slice text b c = Py.slice text a c.
Proof.
  intros Hab Hbc. unfold Py.slice.
  replace (c - a) with ((b - a) + (c - b)) by lia.
  rewrite <- take_take_drop, drop_drop. do 3 f_equal. lia.
Qed.

Lemma slice_empty (text : str) (a : nat) : Py.slice text a a = [].
Proof. unfold Py.slice. by rewrite Nat.sub_diag. Qed.

Lemma slice_to_end (text : str) (a : nat) :
  Py.slice text a (length text) = Py.slice_from text a.
Proof.
  unfold Py.slice, Py.slice_from. apply take_ge. rewrite length_drop. lia.
Qed.

(** The loop of a renderer, seen through what one round does: it appends
    one more piece of the text, possibly empty, and then the chord token. *)
Section Loop.
Context {A : Type} (text : str) (step : str * nat → A → str * nat) (tok : A → str).

Hypothesis step_appends : ∀ result lyric_pos c,
  lyric_pos ≤ length text →
  ∃ lyric_pos', lyric_pos ≤ lyric_pos' ≤ length text
    ∧ step (result, lyric_pos) c
      = (result ++ Py.slice text lyric_pos lyric_pos' ++ tok c, lyric_pos').

Lemma loop_inserts (cs : list A) (result : str) (lyric_pos : nat) :
  lyric_pos ≤ length text →
  ∃ body lyric_pos',
    foldl step (result, lyric_pos) cs = (result ++ body, lyric_pos')
    ∧ lyric_pos ≤ lyric_pos' ≤ length text
    ∧ Inserted (Py.slice text lyric_pos lyric_pos') (map tok cs) body.
Proof using step_appends.
  revert result lyric_pos. induction cs as [| c cs IH]; intros result lyric_pos Hpos.
  - exists [], lyric_pos. cbn. rewrite app_nil_r, slice_empty.
    split; [reflexivity |]. split; [lia | constructor].
  - destruct (step_appends result lyric_pos c Hpos) as (p1 & Hp1 & Hstep).
    destruct (IH (result ++ Py.slice text lyric_pos p1 ++ tok c) p1) as (body & p2 & Hfold & Hp2 & Hins);
      [lia |].
    exists (Py.slice text lyric_pos p1 ++ tok c ++ body), p2.
    cbn [foldl map]. rewrite Hstep, Hfold.
    split; [by rewrite <- !app_assoc |]. split; [lia |].
    rewrite <- (slice_app text lyric_pos p1 p2) by lia.
    apply (Inserted_app _ _ [] _ _ _ (Inserted_text _)).
    by constructor.
Qed.

(** The whole renderer: the loop from the empty result, then the rest of
    the text. *)
Lemma render_inserts (cs : list A) :
  Inserted text (map tok cs)
    (let '(result, lyric_pos) := foldl step ([], 0) cs in
     if lyric_pos <? length text then result ++ Py.slice_from text lyric_pos else result).
Proof using step_appends.
  destruct (loop_inserts cs [] 0) as (body & p & -> & Hp & Hins); [lia |].
  cbn [app].
  assert (Inserted text (map tok cs) (body ++ Py.slice_from text p)) as Hall.
  { rewrite <- (take_drop p text) at 1.
    rewrite <- (app_nil_r (map tok cs)).
    apply Inserted_app; [| apply Inserted_text].
    unfold Py.slice in Hins. by rewrite Nat.sub_0_r in Hins. }
  destruct (p <? length text) eqn:Hlt; [exact Hall |].
  apply Nat.ltb_ge in Hlt. unfold Py.slice_from in Hall.
  rewrite drop_ge, app_nil_r in Hall by lia. exact Hall.
Qed.

End Loop.
End Inserted.

Section ModelsRender.
Context {F : Type}.
Import Models.

Lemma models_place_chord_appends (text : str) (result : str) (lyric_pos : nat)
    (c : Chord F) :
  lyric_pos ≤ length text →
  ∃ lyric_pos', lyric_pos ≤ lyric_pos' ≤ length text
    ∧ place_chord text (result, lyric_pos) c
      = (result ++ Py.slice text lyric_pos lyric_pos' ++ bracket (chord c), lyric_pos').
Proof.
  intros Hpos. unfold place_chord.
  destruct (Z.of_nat (length text) <=? position c)%Z eqn:Hend.
  - destruct (lyric_pos <? length text) eqn:Hlt.
    + exists (length text). apply Nat.ltb_lt in Hlt. split; [lia |].
      by rewrite slice_to_end, app_assoc.
    + exists lyric_pos. split; [lia |]. by rewrite slice_empty.
  - apply Z.leb_gt in Hend.
    destruct (Z.of_nat lyric_pos <? position c)%Z eqn:Hlt.
    + exists (Z.to_nat (position c)). apply Z.ltb_lt in Hlt. split; [lia |].
      by rewrite app_assoc.
    + exists lyric_pos. split; [lia |]. by rewrite slice_empty.
Qed.

(** C10. For every verse line and every list of chords with arbitrary
    integer positions, the string returned by [to_chordpro] is the line's
    text with the chord tokens inserted (in the order of the stable sort by
    position): deleting the inserted tokens gives back exactly the text,
    its characters in order, none duplicated or lost.  With no chords the
    text is returned unchanged. *)
Theorem to_chordpro_preserves_text (self : VerseLine F) :
  Spec.Inserted (text self)
    (map (λ c, bracket (chord c)) (sorted_by_key position (chords self)))
    (to_chordpro self)
  ∧ (chords self = [] → to_chordpro self = text self).
Proof.
  unfold to_chordpro. destruct (chords self) as [| c cs] eqn:Hcs.
  - split; [apply Inserted_text | reflexivity].
  - split; [| discriminate].
    apply (render_inserts (text self) (place_chord (text self))
             (λ c, bracket (chord c))).
    intros result lyric_pos c'. apply models_place_chord_appends.
Qed.

End ModelsRender.

Section SpanRender.
Context {F : Type}.
Import PyMuPDFSpanParser.

Lemma span_place_chord_appends (text : str) (result : str) (lyric_pos : nat)
    (c : ChordPosition F) :
  lyric_pos ≤ length text →
  ∃ lyric_pos', lyric_pos ≤ lyric_pos' ≤ length text
    ∧ place_chord text (result, lyric_pos) c
      = (result ++ Py.slice text lyric_pos lyric_pos' ++ bracket (chord c), lyric_pos').
Proof.
  intros Hpos. unfold place_chord.
  destruct (Z.of_nat (length text) <=? position c)%Z eqn:Hend.
  - destruct (lyric_pos <? length text) eqn:Hlt.
    + exists (length text). apply Nat.ltb_lt in Hlt. split; [lia |].
      by rewrite slice_to_end, app_assoc.
    + exists lyric_pos. split; [lia |]. by rewrite slice_empty.
  - apply Z.leb_gt in Hend.
    destruct (Z.of_nat lyric_pos <? position c)%Z eqn:Hlt.
    + exists (Z.to_nat (position c)). apply Z.ltb_lt in Hlt. split; [lia |].
      by rewrite app_assoc.
    + exists lyric_pos. split; [lia |]. by rewrite slice_empty.
Qed.

(** Chords whose offset is the text length go after the whole text. *)
Lemma span_place_chords_at_end (text : str) (cs : list (ChordPosition F))
    (result : str) (lyric_pos : nat) :
  lyric_pos ≤ length text →
  Forall (λ c, position c = Z.of_nat (length text)) cs →
  cs ≠ [] →
  foldl (place_chord text) (result, lyric_pos) cs
  = (result ++ Py.slice_from text lyric_pos ++ concat (map (λ c, bracket (chord c)) cs),
     length text).
Proof.
  intros Hpos Hall. revert result lyric_pos Hpos.
  induction Hall as [| c cs Hc Hall IH]; intros result lyric_pos Hpos Hne; [done |].
  cbn [foldl map concat]. unfold place_chord at 2.
  rewrite Hc, Z.leb_refl.
  assert ((if lyric_pos <? length text
           then (result ++ Py.slice_from text lyric_pos, length text)
           else (result, lyric_pos))
          = (result ++ Py.slice_from text lyric_pos, length text)) as ->.
  { destruct (lyric_pos <? length text) eqn:Hlt; [reflexivity |].
    apply Nat.ltb_ge in Hlt. assert (lyric_pos = length text) as -> by lia.
    unfold Py.slice_from. by rewrite drop_all, app_nil_r. }
  destruct cs as [| c' cs'].
  - cbn. by rewrite app_nil_r, <- app_assoc.
  - rewrite IH by (done || lia). unfold Py.slice_from at 2.
    rewrite drop_all. cbn [app]. by rewrite <- !app_assoc.
Qed.

Lemma span_chords_at_line_end (chords : list (ChordPosition F)) (lyric_text : str) :
  chords ≠ [] →
  Forall (λ c, position c = Z.of_nat (length lyric_text)) chords →
  _position_chords_in_lyrics chords lyric_text
  = match Py.strip lyric_text with [] => [] | _ => lyric_text end
    ++ concat (map (λ c, bracket (chord c)) chords).
Proof.
  intros Hne Hall. unfold _position_chords_in_lyrics.
  destruct chords as [| c cs]; [done |].
  destruct (Py.strip lyric_text) as [| s0 srest]; [reflexivity |].
  rewrite (sorted_by_key_constant position _ _ Hall).
  rewrite span_place_chords_at_end by (done || lia).
  rewrite Nat.ltb_irrefl. reflexivity.
Qed.

Lemma span_render_inserts (chords : list (ChordPosition F)) (lyric_text : str) :
  Spec.Inserted
    (match chords, Py.strip lyric_text with _ :: _, [] => [] | _, _ => lyric_text end)
    (map (λ c, bracket (chord c))
       (match Py.strip lyric_text with [] => chords | _ => sorted_by_key position chords end))
    (_position_chords_in_lyrics chords lyric_text).
Proof.
  unfold _position_chords_in_lyrics.
  destruct chords as [| c cs].
  - destruct (Py.strip lyric_text); apply Inserted_text.
  - destruct (Py.strip lyric_text) as [| s0 srest]; [apply Inserted_tokens_only |].
    apply (render_inserts lyric_text (place_chord lyric_text) (λ c, bracket (chord c))).
    intros result lyric_pos c'. apply span_place_chord_appends.
Qed.

End SpanRender.

Section ProportionalRender.
Import ProportionalMapper.

Lemma proportional_place_chord_appends (text : str) (result : str) (lyric_pos : nat)
    (c : ChordPosition) :
  lyric_pos ≤ length text →
  ∃ lyric_pos', lyric_pos ≤ lyric_pos' ≤ length text
    ∧ place_chord text (result, lyric_pos) c
      = (result ++ Py.slice text lyric_pos lyric_pos' ++ bracket (chord c), lyric_pos').
Proof.
  intros Hpos. unfold place_chord.
  destruct (Z.of_nat lyric_pos <? Z.min (position c) (Z.of_nat (length text)))%Z eqn:Hlt.
  - exists (Z.to_nat (Z.min (position c) (Z.of_nat (length text)))).
    apply Z.ltb_lt in Hlt. split; [lia |]. by rewrite app_assoc.
  - exists lyric_pos. split; [lia |]. by rewrite slice_empty.
Qed.

Lemma proportional_place_chords_at_end (text : str) (cs : list ChordPosition)
    (result : str) (lyric_pos : nat) :
  lyric_pos ≤ length text →
  Forall (λ c, position c = Z.of_nat (length text)) cs →
  cs ≠ [] →
  foldl (place_chord text) (result, lyric_pos) cs
  = (result ++ Py.slice_from text lyric_pos ++ concat (map (λ c, bracket (chord c)) cs),
     length text).
Proof.
  intros Hpos Hall. revert result lyric_pos Hpos.
  induction Hall as [| c cs Hc Hall IH]; intros result lyric_pos Hpos Hne; [done |].
  cbn [foldl map concat]. unfold place_chord at 2.
  rewrite Hc, Z.min_id.
  assert ((if (Z.of_nat lyric_pos <? Z.of_nat (length text))%Z
           then (result ++ Py.slice text lyric_pos (Z.to_nat (Z.of_nat (length text))),
                 Z.to_nat (Z.of_nat (length text)))
           else (result, lyric_pos))
          = (result ++ Py.slice_from text lyric_pos, length text)) as ->.
  { rewrite Nat2Z.id, slice_to_end.
    destruct (Z.of_nat lyric_pos <? Z.of_nat (length text))%Z eqn:Hlt; [reflexivity |].
    apply Z.ltb_ge in Hlt. assert (lyric_pos = length text) as -> by lia.
    unfold Py.slice_from. by rewrite drop_all, app_nil_r. }
  destruct cs as [| c' cs'].
  - cbn. by rewrite app_nil_r, <- app_assoc.
  - rewrite IH by (done || lia). unfold Py.slice_from at 2.
    rewrite drop_all. cbn [app]. by rewrite <- !app_assoc.
Qed.

Lemma proportional_chords_at_line_end (chords : list ChordPosition) (lyric_text : str) :
  chords ≠ [] →
  Forall (λ c, position c = Z.of_nat (length lyric_text)) chords →
  _position_chords_in_lyrics chords lyric_text
  = match Py.strip lyric_text with [] => [] | _ => lyric_text end
    ++ concat (map (λ c, bracket (chord c)) chords).
Proof.
  intros Hne Hall. unfold _position_chords_in_lyrics.
  destruct chords as [| c cs]; [done |].
  destruct (Py.strip lyric_text) as [| s0 srest]; [reflexivity |].
  rewrite (sorted_by_key_constant position _ _ Hall).
  rewrite proportional_place_chords_at_end by (done || lia).
  rewrite Nat.ltb_irrefl. reflexivity.
Qed.

Lemma proportional_render_inserts (chords : list ChordPosition) (lyric_text : str) :
  Spec.Inserted
    (match chords, Py.strip lyric_text with _ :: _, [] => [] | _, _ => lyric_text end)
    (map (λ c, bracket (chord c))
       (match Py.strip lyric_text with [] => chords | _ => sorted_by_key position chords end))
    (_position_chords_in_lyrics chords lyric_text).
Proof.
  unfold _position_chords_in_lyrics.
  destruct chords as [| c cs].
  - destruct (Py.strip lyric_text); apply Inserted_text.
  - destruct (Py.strip lyric_text) as [| s0 srest]; [apply Inserted_tokens_only |].
    apply (render_inserts lyric_text (place_chord lyric_text) (λ c, bracket (chord c))).
    intros result lyric_pos c'. apply proportional_place_chord_appends.
Qed.

End ProportionalRender.

(** ** The proportional mapper *)

Section ChordLineScan.
Import ChordSystem ProportionalMapper.

Lemma scan_chord_line_cons (c : ascii) (s : str) (i : nat) :
  scan_chord_line (c :: s) i
  = if Py.isspace c then scan_chord_line s (S i) else read_word i [c] s (S i).
Proof. cbn [scan_chord_line]. destruct (Py.isspace c); reflexivity. Qed.

(** What may follow a word: the end of the line, or whitespace. *)
Definition word_ends (post : str) : Prop :=
  post = [] ∨ ∃ c post', post = c :: post' ∧ Py.isspace c = true.

Lemma read_word_run (chord_start : nat) (word post chord_word : str) (i2 : nat) :
  Forall (λ c, Py.isspace c = false) word →
  word_ends post →
  read_word chord_start chord_word (word ++ post) i2
  = keep_chord (chord_word ++ word) chord_start
    ++ scan_chord_line post (i2 + length word).
Proof.
  intros Hword Hpost. revert chord_word i2.
  induction Hword as [| a word Ha _ IH]; intros chord_word i2.
  - cbn [app length]. rewrite app_nil_r, Nat.add_0_r.
    destruct Hpost as [-> | (c & post' & -> & Hc)]; cbn [read_word].
    + rewrite app_nil_r. reflexivity.
    + rewrite Hc. reflexivity.
  - cbn [app length]. unfold read_word at 1; fold (read_word chord_start).
    rewrite Ha, IH. rewrite <- app_assoc. cbn [app].
    replace (S i2 + length word) with (i2 + S (length word)) by lia. reflexivity.
Qed.

(** The scan on a word at the head of the line. *)
Lemma scan_chord_line_word (word post : str) (i : nat) :
  word ≠ [] →
  Forall (λ c, Py.isspace c = false) word →
  word_ends post →
  scan_chord_line (word ++ post) i
  = keep_chord word i ++ scan_chord_line post (i + length word).
Proof.
  intros Hne Hword Hpost. destruct word as [| a word]; [contradiction |].
  apply Forall_cons in Hword as [Ha Hword].
  cbn [app]. rewrite scan_chord_line_cons, Ha, read_word_run by assumption.
  cbn [app length].
  replace (S i + length word) with (i + S (length word)) by lia. reflexivity.
Qed.

(** A line splits into its leading run of non-whitespace and the rest. *)
Lemma leading_run (s : str) :
  ∃ run rest, s = run ++ rest
    ∧ Forall (λ c, Py.isspace c = false) run ∧ word_ends rest.
Proof.
  induction s as [| c s (run & rest & -> & Hrun & Hrest)].
  - exists [], []. split; [reflexivity |]. split; [constructor | by left].
  - destruct (Py.isspace c) eqn:Hc.
    + exists [], (c :: run ++ rest). split; [reflexivity |].
      split; [constructor | right; eauto].
    + exists (c :: run), rest. split; [reflexivity |]. split; [by constructor | done].
Qed.

(** What may precede a word: the start of the line, or whitespace. *)
Definition word_starts (pre : str) : Prop :=
  match last pre with Some c => Py.isspace c = true | None => True end.

Lemma scan_chord_line_finds (n : nat) :
  ∀ (pre word post : str) (k : nat) (found : str * nat),
    length pre ≤ n →
    word_starts pre →
    word ≠ [] → Forall (λ c, Py.isspace c = false) word → word_ends post →
    found ∈ keep_chord word (k + length pre) →
    found ∈ scan_chord_line (pre ++ word ++ post) k.
Proof.
  induction n as [| n IH]; intros pre word post k found Hn Hpre Hne Hword Hpost Hfound.
  - destruct pre; [| cbn in Hn; lia]. cbn [app length] in *.
    rewrite scan_chord_line_word by assumption. rewrite Nat.add_0_r in Hfound.
    apply elem_of_app. left. exact Hfound.
  - destruct pre as [| c pre'].
    { apply (IH []); try assumption. cbn. lia. }
    destruct (Py.isspace c) eqn:Hc.
    + cbn [app]. rewrite scan_chord_line_cons, Hc.
      replace (k + length (c :: pre')) with (S k + length pre') in Hfound by (cbn; lia).
      apply IH; try assumption; [cbn in Hn; lia |].
      unfold word_starts in *. destruct pre' as [| c' pre'']; [exact I |].
      rewrite last_cons_cons in Hpre. exact Hpre.
    + destruct (leading_run (c :: pre')) as (run & rest & Hsplit & Hrun & Hrest).
      assert (run ≠ []) as Hrun_ne.
      { intros ->. cbn in Hsplit. subst rest.
        destruct Hrest as [Hnil | (c0 & p0 & Heq & Hc0)]; [discriminate Hnil |].
        injection Heq as <- <-. rewrite Hc in Hc0. discriminate Hc0. }
      assert (rest ≠ []) as Hrest_ne.
      { intros ->. rewrite app_nil_r in Hsplit. subst run.
        unfold word_starts in Hpre.
        destruct (last (c :: pre')) as [cl |] eqn:Hlast;
          [| apply last_None in Hlast; discriminate Hlast].
        apply last_Some in Hlast as (l' & Hl').
        rewrite Hl' in Hrun. apply Forall_app in Hrun as [_ Hcl].
        rewrite Forall_singleton in Hcl. rewrite Hpre in Hcl. discriminate Hcl. }
      rewrite Hsplit, <- app_assoc.
      rewrite scan_chord_line_word; [| assumption | assumption |]; last first.
      { destruct Hrest as [Hnil | (c0 & p0 & -> & Hc0)]; [contradiction |].
        right. exists c0, (p0 ++ word ++ post). split; [reflexivity | exact Hc0]. }
      apply elem_of_app. right.
      replace (k + length (c :: pre')) with ((k + length run) + length rest) in Hfound
        by (rewrite Hsplit, length_app; lia).
      apply IH; try assumption.
      * apply (f_equal length) in Hsplit. rewrite length_app in Hsplit.
        cbn in Hsplit, Hn. destruct run; [contradiction |]. cbn in Hsplit. lia.
      * unfold word_starts in *. rewrite Hsplit in Hpre.
        destruct rest as [| r0 rest']; [contradiction |].
        rewrite last_app_cons in Hpre. exact Hpre.
Qed.

(** Every whitespace-delimited token that looks like a chord is found by the
    scan, with its start index. *)
Lemma scan_chord_line_complete (chord_line word : str) (i : nat) :
  Spec.token_at chord_line i word →
  _looks_like_chord word = true →
  (word, i) ∈ scan_chord_line chord_line 0.
Proof.
  intros (Hne & Hword & pre & post & -> & <- & Hpre & Hpost) Hlooks.
  apply (scan_chord_line_finds (length pre) pre word post 0); try assumption.
  - lia.
  - unfold word_starts. destruct Hpre as [-> | (pre' & c & -> & Hc)]; [exact I |].
    rewrite last_snoc. exact Hc.
  - unfold keep_chord. rewrite Hlooks. left.
Qed.

Lemma lstrip_keeps (x y : str) (c : ascii) :
  Py.isspace c = false → length y < length (Py.lstrip (x ++ c :: y)).
Proof.
  intros Hc. induction x as [| a x IH]; cbn.
  - rewrite Hc. cbn. lia.
  - destruct (Py.isspace a); [exact IH |]. cbn. rewrite length_app. cbn. lia.
Qed.

(** A token lies inside the chord line stripped of its trailing
    whitespace. *)
Lemma token_within_effective_length (chord_line word : str) (i : nat) :
  Spec.token_at chord_line i word →
  i + length word ≤ length (Py.rstrip chord_line).
Proof.
  intros (Hne & Hword & pre & post & -> & <- & _ & _).
  destruct (exists_last Hne) as (w' & c & ->).
  apply Forall_app in Hword as [_ Hc]. rewrite Forall_singleton in Hc.
  unfold Py.rstrip. rewrite length_rev, !rev_app_distr. cbn [rev app].
  rewrite <- !app_assoc. cbn [app].
  pose proof (lstrip_keeps (rev post) (rev w' ++ rev pre) c Hc) as Hlen.
  rewrite length_app, !length_rev in Hlen. rewrite length_app. cbn. lia.
Qed.

End ChordLineScan.

Section ProportionalOffsets.
Context {F : Type} `{PyFloat F}.
Import ChordSystem ProportionalMapper.

Lemma text_position_in_bounds (effective_chord_length : nat) (text_content : str)
    (chord_pos : nat) :
  (0 ≤ text_position_of effective_chord_length text_content chord_pos
     ≤ Z.of_nat (length text_content))%Z.
Proof. unfold text_position_of. destruct (0 <? effective_chord_length); lia. Qed.

(** The mapper returns one entry for each chord the scan keeps. *)
Lemma map_chords_proportionally_perm (chord_line text_line : str) :
  map_chords_proportionally chord_line text_line
  ≡ₚ map (λ '(chord_word, chord_pos),
            {| chord := chord_word;
               position := text_position_of (length (Py.rstrip chord_line))
                             (text_content text_line) chord_pos |})
       (scan_chord_line chord_line 0).
Proof. unfold map_chords_proportionally. apply sorted_by_key_perm. Qed.

(** C3, as the code has it.  For every chord token starting at index i of a
    chord line, the proportional mapper returns the offset
    int((i / effectiveChordLineLength) * len(lyricText)), the product
    truncated toward zero by [int], clamped to [0, len(lyricText)];
    effectiveChordLineLength is the length of the chord line without its
    trailing whitespace, and i lies below it. *)
Theorem proportional_offset_truncated (chord_line text_line word : str) (i : nat) :
  Spec.token_at chord_line i word →
  _looks_like_chord word = true →
  let effective_chord_length := length (Py.rstrip chord_line) in
  let text_length := Z.of_nat (length (text_content text_line)) in
  i < effective_chord_length
  ∧ {| chord := word;
       position :=
         Z.max 0
           (Z.min (to_int (fmul (fdiv (of_int (Z.of_nat i))
                                      (of_int (Z.of_nat effective_chord_length)))
                                (of_int text_length)))
                  text_length) |}
    ∈ map_chords_proportionally chord_line text_line.
Proof.
  intros Htoken Hlooks effective_chord_length text_length.
  pose proof (token_within_effective_length _ _ _ Htoken) as Hwithin.
  assert (0 < length word) as Hword.
  { destruct Htoken as (Hne & _). destruct word; [contradiction | cbn; lia]. }
  split; [subst effective_chord_length; lia |].
  rewrite map_chords_proportionally_perm.
  apply list_elem_of_fmap.
  exists (word, i). split; [| apply scan_chord_line_complete; assumption].
  unfold text_position_of. fold effective_chord_length.
  destruct (0 <? effective_chord_length) eqn:Hpos; [reflexivity |].
  apply Nat.ltb_ge in Hpos. subst effective_chord_length. lia.
Qed.

End ProportionalOffsets.

Lemma token_C_of_G_C : Spec.token_at (py "G C") 2 (py "C").
Proof.
  split; [discriminate |]. split.
  { constructor; [vm_compute; reflexivity | constructor]. }
  exists (py "G "), []. split; [reflexivity |]. split; [reflexivity |].
  split; [| by left].
  right. exists (py "G"), " "%char. split; [reflexivity | vm_compute; reflexivity].
Qed.

Lemma proportional_offset_truncated_witness :
  2 < length (Py.rstrip (py "G C"))
  ∧ {| ProportionalMapper.chord := py "C"; ProportionalMapper.position := 2%Z |}
    ∈ ProportionalMapper.map_chords_proportionally (F:=float) (py "G C") (py "abcd").
Proof.
  refine (proportional_offset_truncated (F:=float) (py "G C") (py "abcd") (py "C") 2
            token_C_of_G_C _).
  vm_compute. reflexivity.
Defined.

(** C3 as the specification states it fails: the chord "C" at index 2 of the
    chord line "G C" (effective length 3) over the lyric "abcd" (length 4)
    has the exact offset 8/3, which rounds to 3; the mapper truncates it to
    2, in exact arithmetic and in binary64 alike. *)
Lemma proportional_offset_not_rounded :
  ¬ Spec.proportional_offsets_rounded Q ∧ ¬ Spec.proportional_offsets_rounded float.
Proof.
  split; intros Hclaim.
  - specialize (Hclaim (py "G C") (py "abcd") (py "C") 2 token_C_of_G_C).
    vm_compute in Hclaim. specialize (Hclaim eq_refl).
    apply elem_of_cons in Hclaim as [Hhead | Htail]; [discriminate Hhead |].
    apply elem_of_cons in Htail as [Hhead | Htail]; [discriminate Hhead |].
    by apply elem_of_nil in Htail.
  - specialize (Hclaim (py "G C") (py "abcd") (py "C") 2 token_C_of_G_C).
    vm_compute in Hclaim. specialize (Hclaim eq_refl).
    apply elem_of_cons in Hclaim as [Hhead | Htail]; [discriminate Hhead |].
    apply elem_of_cons in Htail as [Hhead | Htail]; [discriminate Hhead |].
    by apply elem_of_nil in Htail.
Qed.

(** ** Offsets stay inside the lyric line *)

Section OffsetsInBounds.
Context {F : Type} `{PyFloat F}.

(** C1. Under both mapping strategies the computed chord offset lies in
    [0, len(lyric text)]: for the direct pixel mapper, for the span lookup
    that calls it, and for the proportional mapper.  No chord is dropped:
    the proportional mapper returns one entry for each chord the scan of
    the chord line found, and the span lookup, unless it attaches no chord
    line at all, one for each chord located in the chord line.  Chords whose
    offset equals the text length are rendered at the end of the line, after
    the whole lyric text (a lyric text that is blank is not rendered beside
    chords). *)
Theorem chord_offsets_in_bounds :
  (∀ (chord_pixel_x chord_span_start chord_span_width : F) (verse_text : str)
     (verse_span_start verse_span_width font_size : F),
     (0 ≤ PyMuPDFSpanParser.map_chord_to_verse_position chord_pixel_x
            chord_span_start chord_span_width verse_text verse_span_start
            verse_span_width font_size
        ≤ Z.of_nat (length verse_text))%Z)
  ∧ (∀ (text_line_data : PyMuPDFSpanParser.LineData F)
       (chord_lines : list (PyMuPDFSpanParser.LineData F)),
       Forall (λ c, (0 ≤ PyMuPDFSpanParser.position c
                       ≤ Z.of_nat (length (PyMuPDFSpanParser.text_content text_line_data)))%Z)
         (PyMuPDFSpanParser._find_chords_with_span_positioning text_line_data chord_lines)
       ∧ (PyMuPDFSpanParser._find_chords_with_span_positioning text_line_data chord_lines = []
          ∨ ∃ best, best ∈ chord_lines
              ∧ map PyMuPDFSpanParser.chord
                  (PyMuPDFSpanParser._find_chords_with_span_positioning
                     text_line_data chord_lines)
                ≡ₚ map fst
                     (PyMuPDFSpanParser.find_chord_positions_in_span
                        (PyMuPDFSpanParser.text best) (PyMuPDFSpanParser.x_start best)
                        (PyMuPDFSpanParser.width best))))
  ∧ (∀ chord_line text_line : str,
       Forall (λ c, (0 ≤ ProportionalMapper.position c
                       ≤ Z.of_nat (length (ProportionalMapper.text_content text_line)))%Z)
         (ProportionalMapper.map_chords_proportionally (F:=F) chord_line text_line)
       ∧ map ProportionalMapper.chord
           (ProportionalMapper.map_chords_proportionally (F:=F) chord_line text_line)
         ≡ₚ map fst (ProportionalMapper.scan_chord_line chord_line 0))
  ∧ (∀ (chords : list (PyMuPDFSpanParser.ChordPosition F)) (lyric_text : str),
       chords ≠ [] →
       Forall (λ c, PyMuPDFSpanParser.position c = Z.of_nat (length lyric_text)) chords →
       PyMuPDFSpanParser._position_chords_in_lyrics chords lyric_text
       = match Py.strip lyric_text with [] => [] | _ => lyric_text end
         ++ concat (map (λ c, PyMuPDFSpanParser.bracket (PyMuPDFSpanParser.chord c)) chords))
  ∧ (∀ (chords : list ProportionalMapper.ChordPosition) (lyric_text : str),
       chords ≠ [] →
       Forall (λ c, ProportionalMapper.position c = Z.of_nat (length lyric_text)) chords →
       ProportionalMapper._position_chords_in_lyrics chords lyric_text
       = match Py.strip lyric_text with [] => [] | _ => lyric_text end
         ++ concat (map (λ c, ProportionalMapper.bracket (ProportionalMapper.chord c)) chords)).
Proof.
  split; [intros; apply map_chord_in_bounds |].
  split.
  { intros tl cls.
    destruct (find_chords_positions tl cls) as [Hnone | (best & Hbest & Hperm)].
    - rewrite Hnone. split; [constructor | left; reflexivity].
    - split.
      + rewrite Hperm. unfold PyMuPDFSpanParser.map_positions.
        apply Forall_map, Forall_forall. intros [name px] _. cbn.
        apply map_chord_in_bounds.
      + right. exists best. split; [exact Hbest |].
        rewrite Hperm. unfold PyMuPDFSpanParser.map_positions.
        rewrite map_map. apply Permutation_refl'.
        apply map_ext. intros [name px]. reflexivity. }
  split.
  { intros chord_line text_line.
    pose proof (map_chords_proportionally_perm (F:=F) chord_line text_line) as Hperm.
    split.
    - rewrite Hperm. apply Forall_map, Forall_forall. intros [w p] _. cbn.
      apply text_position_in_bounds.
    - rewrite Hperm, map_map. apply Permutation_refl'.
      apply map_ext. intros [w p]. reflexivity. }
  split.
  - intros. by apply span_chords_at_line_end.
  - intros. by apply proportional_chords_at_line_end.
Qed.

End OffsetsInBounds.

(** ** The backward search for the chord line *)

Section BackwardSearch.
Context {F : Type} `{PyFloat F}.
Import ChordSystem ProportionalMapper.

(** The verse builder that has a backward search.  In the
    line-sequence builder ([ProportionalMapper]) the search for the nearest
    chord line above line [i] stops at the first RoleMarkerText or PlainText
    line it meets: when it attaches the chord line at index [j], that line
    is a chord line above [i] and no line strictly between [j] and [i] is a
    text line (only blank lines and comments are skipped), so chords never
    cross an intervening text line. *)
Theorem chord_search_stops_at_text_line (pdftotext_lines : list str) (i j : nat) :
  search_above F pdftotext_lines i = Some j →
  j < i
  ∧ (∃ chord_line, pdftotext_lines !! j = Some chord_line
       ∧ _is_chord_line_text F chord_line = true)
  ∧ ∀ k line, j < k < i → pdftotext_lines !! k = Some line →
      Spec.is_text_line F line = false.
Proof.
  revert j. induction i as [| i IH]; intros j Hsearch; [discriminate Hsearch |].
  cbn [search_above] in Hsearch.
  destruct (pdftotext_lines !! i) as [line0 |] eqn:Hline0;
    unfold default in Hsearch; cbn [from_option] in Hsearch; unfold id in Hsearch.
  - destruct (Py.strip line0) as [| s0 srest] eqn:Hstrip.
    + destruct (IH j Hsearch) as (Hlt & Hchord & Hbetween).
      split; [lia |]. split; [exact Hchord |].
      intros k line Hk Hline.
      destruct (decide (k = i)) as [-> | Hne]; [| apply (Hbetween k); [lia | exact Hline]].
      rewrite Hline0 in Hline. injection Hline as <-.
      unfold Spec.is_text_line. rewrite Hstrip. reflexivity.
    + destruct (_is_chord_line_text F line0) eqn:Hchord0.
      * injection Hsearch as <-. split; [lia |].
        split; [exists line0; split; [exact Hline0 | exact Hchord0] |].
        intros k line Hk. lia.
      * destruct (_extract_role_marker line0) as [| r0 rrest] eqn:Hrole;
          [| discriminate Hsearch].
        cbn [negb andb] in Hsearch.
        destruct (_is_comment_line line0) eqn:Hcomment; cbn [negb] in Hsearch;
          [| discriminate Hsearch].
        destruct (IH j Hsearch) as (Hlt & Hchord & Hbetween).
        split; [lia |]. split; [exact Hchord |].
        intros k line Hk Hline.
        destruct (decide (k = i)) as [-> | Hne]; [| apply (Hbetween k); [lia | exact Hline]].
        rewrite Hline0 in Hline. injection Hline as <-.
        unfold Spec.is_text_line. rewrite Hstrip, Hcomment. reflexivity.
  - change (Py.strip []) with (@nil ascii) in Hsearch. cbn iota in Hsearch.
    destruct (IH j Hsearch) as (Hlt & Hchord & Hbetween).
    split; [lia |]. split; [exact Hchord |].
    intros k line Hk Hline.
    destruct (decide (k = i)) as [-> | Hne]; [| apply (Hbetween k); [lia | exact Hline]].
    rewrite Hline0 in Hline. discriminate Hline.
Qed.

End BackwardSearch.

Lemma chord_search_stops_at_text_line_witness :
  1 < 4
  ∧ (∃ chord_line,
       [py "K. Slava"; py " G  C"; py "(bez: a)"; py ""; py "Bogu"] !! 1 = Some chord_line
       ∧ ChordSystem._is_chord_line_text Q chord_line = true)
  ∧ ∀ k line, 1 < k < 4 →
      [py "K. Slava"; py " G  C"; py "(bez: a)"; py ""; py "Bogu"] !! k = Some line →
      Spec.is_text_line Q line = false.
Proof.
  apply (chord_search_stops_at_text_line
           [py "K. Slava"; py " G  C"; py "(bez: a)"; py ""; py "Bogu"] 4 1).
  vm_compute. reflexivity.
Defined.

(** C4.  The lookup of the span parser, documented as attaching chords "only
    if chord line is directly above", looks only at the vertical distance
    and so crosses a text line.  With 8pt lines 9 units apart (a chord line
    at y = 90, lyric lines at y = 99 and y = 108, classified as such), the
    chord line is attached to the lyric line at y = 99 and also to the lyric
    line at y = 108, beyond the intervening text line; in exact arithmetic
    and in binary64.  On the same three lines the backward search of the
    line-sequence builder stops at the text line: the first lyric line gets
    the chord, the second gets none. *)
Lemma span_chords_cross_text_line :
  let scenario (F : Type) (PF : PyFloat F) :=
    let line (t : str) (top : Z) (pink : bool) : PyMuPDFSpanParser.LineData F :=
      {| PyMuPDFSpanParser.text := t; PyMuPDFSpanParser.text_content := t;
         PyMuPDFSpanParser.x_start := of_int 50; PyMuPDFSpanParser.width := of_int 40;
         PyMuPDFSpanParser.y := of_int top; PyMuPDFSpanParser.font_size := of_int 8;
         PyMuPDFSpanParser.is_pink := pink |} in
    let chords := line (py "G") 90%Z true in
    let above := line (py "Slava Bogu") 99%Z false in
    let below := line (py "na visini") 108%Z false in
    (PyMuPDFSpanParser.classify_line (PyMuPDFSpanParser.text chords) (of_int 8 : F) true,
     PyMuPDFSpanParser.classify_line (PyMuPDFSpanParser.text above) (of_int 8 : F) false,
     PyMuPDFSpanParser.classify_line (PyMuPDFSpanParser.text below) (of_int 8 : F) false,
     flt (PyMuPDFSpanParser.y chords) (PyMuPDFSpanParser.y above),
     flt (PyMuPDFSpanParser.y above) (PyMuPDFSpanParser.y below),
     map (λ l, map PyMuPDFSpanParser.chord (PyMuPDFSpanParser.verse_chords l))
       (PyMuPDFSpanParser.default_verse_lines [above; below] [chords])) in
  let crossing :=
    (Some PyMuPDFSpanParser.chord_lines, Some PyMuPDFSpanParser.text_lines,
     Some PyMuPDFSpanParser.text_lines, true, true, [[py "G"]; [py "G"]]) in
  let lines := [py "G"; py "Slava Bogu"; py "na visini"] in
  scenario Q Q_float = crossing
  ∧ scenario float binary64_float = crossing
  ∧ (map ProportionalMapper.chord
       <$> ProportionalMapper._find_chords_with_proportional_mapping (F:=float) lines 1)
    = Some [py "G"]
  ∧ ProportionalMapper._find_chords_with_proportional_mapping (F:=float) lines 2
    = Some [].
Proof. vm_compute. repeat split; reflexivity. Qed.

(** ** Splitting and stripping *)

Section SplitStrip.

Lemma lstrip_decompose (s : str) :
  ∃ ws, s = ws ++ Py.lstrip s ∧ Forall (λ c, Py.isspace c = true) ws.
Proof.
  induction s as [| c s (ws & Hs & Hws)]; [by exists [] |].
  cbn [Py.lstrip]. destruct (Py.isspace c) eqn:Hc.
  - exists (c :: ws). split; [cbn; congruence | by constructor].
  - by exists [].
Qed.

Lemma rstrip_decompose (s : str) :
  ∃ ws, s = Py.rstrip s ++ ws ∧ Forall (λ c, Py.isspace c = true) ws.
Proof.
  destruct (lstrip_decompose (rev s)) as (ws & Hs & Hws).
  exists (rev ws). split; [| by apply Forall_rev].
  unfold Py.rstrip. rewrite <- rev_app_distr, <- Hs. by rewrite rev_involutive.
Qed.

Lemma split_from_lstrip (s : str) : Py.split_from [] (Py.lstrip s) = Py.split_from [] s.
Proof.
  induction s as [| c s IH]; [reflexivity |].
  cbn [Py.lstrip Py.split_from]. destruct (Py.isspace c) eqn:Hc; [exact IH |].
  cbn [Py.split_from]. by rewrite Hc.
Qed.

Lemma split_from_blank (cur ws : str) :
  Forall (λ c, Py.isspace c = true) ws →
  Py.split_from cur ws = match cur with [] => [] | _ => [rev cur] end.
Proof.
  intros Hws. revert cur. induction Hws as [| c ws Hc _ IH]; intros cur; [reflexivity |].
  cbn [Py.split_from]. rewrite Hc. destruct cur; rewrite IH; reflexivity.
Qed.

Lemma split_from_app_blank (cur s ws : str) :
  Forall (λ c, Py.isspace c = true) ws →
  Py.split_from cur (s ++ ws) = Py.split_from cur s.
Proof.
  intros Hws. revert cur. induction s as [| c s IH]; intros cur.
  - cbn [app]. rewrite split_from_blank by exact Hws. reflexivity.
  - cbn [app Py.split_from]. destruct (Py.isspace c); [destruct cur |]; by rewrite IH.
Qed.

(** Surrounding whitespace does not change the words of a line. *)
Lemma split_strip (s : str) : Py.split (Py.strip s) = Py.split s.
Proof.
  unfold Py.split, Py.strip.
  destruct (rstrip_decompose (Py.lstrip s)) as (ws & Hs & Hws).
  rewrite <- (split_from_lstrip s). rewrite Hs at 2.
  by rewrite split_from_app_blank.
Qed.

End SplitStrip.

(** ** Classification of a line *)

Section Ratios.

(** The two ratio tests of the classifier, in exact arithmetic. *)
Lemma ratio_above_six_tenths (c n : nat) :
  0 < n →
  flt (literal 6 10 : Q) (fdiv (of_int (Z.of_nat c)) (of_int (Z.of_nat n))) = true
  ↔ 3 * n < 5 * c.
Proof.
  intros Hn. cbn [flt Q_float]. rewrite Qlt_bool_iff.
  unfold literal. cbn [fdiv of_int Q_float].
  destruct (Z.of_nat n) as [| p | p] eqn:Hp; [lia | | lia].
  unfold Qlt, Qdiv, Qmult, Qinv, inject_Z. cbn. lia.
Qed.

Lemma ratio_at_least_seven_tenths (u n : nat) :
  0 < n →
  fle (literal 7 10 : Q) (fdiv (of_int (Z.of_nat u)) (of_int (Z.of_nat n))) = true
  ↔ 7 * n ≤ 10 * u.
Proof.
  intros Hn. cbn [fle Q_float]. rewrite Qle_bool_iff.
  unfold literal. cbn [fdiv of_int Q_float].
  destruct (Z.of_nat n) as [| p | p] eqn:Hp; [lia | | lia].
  unfold Qle, Qdiv, Qmult, Qinv, inject_Z. cbn. lia.
Qed.

Lemma is_chord_line_text_iff (text : str) :
  ChordSystem._is_chord_line_text Q text = true
  ↔ 3 * length (Py.split text) < 5 * ChordSystem.chord_count (Py.split text).
Proof.
  unfold ChordSystem._is_chord_line_text.
  destruct (Py.split text) as [| w ws] eqn:Hwords.
  - cbn. split; [discriminate | lia].
  - apply ratio_above_six_tenths. cbn. lia.
Qed.

End Ratios.

Section Classifier.
Import ChordSystem PyMuPDFSpanParser.

(** C7. For every text line, if strictly more than 60% of its
    whitespace-delimited tokens match the chord grammar, the line is
    classified as a chord line; the rule takes precedence over Title: the
    line is never classified as Title, and the Title test itself rejects it,
    whatever its colour, font size and letters.  Stated in exact
    arithmetic. *)
Theorem chord_heavy_line_is_chord_line (line_text : str) (font_size : Q) (is_pink : bool) :
  3 * length (Py.split line_text) < 5 * chord_count (Py.split line_text) →
  classify_line line_text font_size is_pink = Some chord_lines
  ∧ classify_line line_text font_size is_pink ≠ Some title_lines
  ∧ _is_title_line line_text font_size is_pink = false.
Proof.
  intros Hheavy.
  pose proof (proj2 (is_chord_line_text_iff line_text) Hheavy) as Hchord.
  assert (classify_line line_text font_size is_pink = Some chord_lines) as Hclass.
  { unfold classify_line. rewrite Hchord.
    destruct (Py.strip line_text) as [| s0 srest] eqn:Hstrip; [| reflexivity].
    exfalso. rewrite <- split_strip, Hstrip in Hheavy. cbn in Hheavy. lia. }
  split; [exact Hclass |]. split; [rewrite Hclass; discriminate |].
  unfold _is_title_line.
  rewrite <- split_strip in Hheavy.
  rewrite (proj2 (is_chord_line_text_iff (Py.strip line_text)) Hheavy).
  cbn [negb]. rewrite andb_false_r. reflexivity.
Qed.

(** What the Title test does require.  A line is classified Title only if
    it is not a chord line, its accent-colour flag is set, its font size is at least the title threshold
    (12), at least 70% of its letters are uppercase once parenthetical text
    and a biblical-reference-shaped part are removed (no letter left counts
    as satisfied), its stripped length exceeds the minimum (4), no role
    marker occurs in it, and the capo keyword "kapodaster" does not occur in
    it.  Stated in exact arithmetic. *)
Theorem title_only_if (line_text : str) (font_size : Q) (is_pink : bool) :
  classify_line line_text font_size is_pink = Some title_lines →
  let text_clean := Py.strip line_text in
  let letters_text := text_for_case_check text_clean in
  _is_chord_line_text Q line_text = false
  ∧ is_pink = true
  ∧ (12 <= font_size)%Q
  ∧ 7 * (uppercase_chars letters_text + lowercase_chars letters_text)
    ≤ 10 * uppercase_chars letters_text
  ∧ 4 < length text_clean
  ∧ has_role_marker text_clean = false
  ∧ Py.contains (py "kapodaster") (Py.lower text_clean) = false.
Proof.
  intros Hclass. cbv zeta. unfold classify_line in Hclass.
  destruct (Py.strip line_text) as [| s0 srest] eqn:Hstrip; [discriminate Hclass |].
  rewrite <- Hstrip in *. clear Hstrip s0 srest.
  destruct (_is_chord_line_text Q line_text) eqn:Hchord; [discriminate Hclass |].
  destruct (_is_title_line line_text font_size is_pink) eqn:Htitle; last first.
  { destruct (_is_kapodaster_line line_text is_pink); [discriminate Hclass |].
    destruct (_is_comment_line_enhanced line_text is_pink); [| discriminate Hclass].
    destruct (is_pink && _ && _); discriminate Hclass. }
  clear Hclass. unfold _is_title_line in Htitle.
  apply andb_true_iff in Htitle as [Htitle Hcapo].
  apply andb_true_iff in Htitle as [Htitle Hnot_chord].
  apply andb_true_iff in Htitle as [Htitle Hrole].
  apply andb_true_iff in Htitle as [Htitle Hpink].
  apply andb_true_iff in Htitle as [Htitle Hsize].
  apply andb_true_iff in Htitle as [Hupper Hlen].
  split; [reflexivity |].
  split; [exact Hpink |].
  split.
  { cbn [fle Q_float] in Hsize. apply Qle_bool_iff in Hsize.
    unfold literal in Hsize. cbn [fdiv of_int Q_float] in Hsize.
    assert (inject_Z 12 / inject_Z 1 == 12)%Q as Heq by reflexivity.
    rewrite Heq in Hsize. exact Hsize. }
  split.
  { unfold is_mostly_uppercase in Hupper.
    destruct (text_for_case_check (Py.strip line_text)) as [| l0 lrest];
      [cbn; lia |].
    destruct (0 <? uppercase_chars (l0 :: lrest) + lowercase_chars (l0 :: lrest))
      eqn:Htotal.
    - apply Nat.ltb_lt in Htotal.
      apply ratio_at_least_seven_tenths in Hupper; [exact Hupper | exact Htotal].
    - apply Nat.ltb_ge in Htotal. lia. }
  split; [apply Nat.ltb_lt in Hlen; exact Hlen |].
  split; [apply negb_true_iff in Hrole; exact Hrole |].
  apply negb_true_iff in Hcapo. exact Hcapo.
Qed.

End Classifier.

Lemma chord_heavy_line_is_chord_line_witness :
  3 * length (Py.split (py "A D E")) < 5 * ChordSystem.chord_count (Py.split (py "A D E"))
  ∧ PyMuPDFSpanParser.classify_line (py "A D E") 14%Q true
    = Some PyMuPDFSpanParser.chord_lines.
Proof.
  assert (3 * length (Py.split (py "A D E"))
          < 5 * ChordSystem.chord_count (Py.split (py "A D E"))) as Hheavy.
  { vm_compute. lia. }
  split; [exact Hheavy |].
  exact (proj1 (chord_heavy_line_is_chord_line (py "A D E") 14%Q true Hheavy)).
Defined.

Lemma title_only_if_witness :
  PyMuPDFSpanParser.classify_line (py "TE DEUM - Ps 64 (65)") 14%Q true
    = Some PyMuPDFSpanParser.title_lines
  ∧ 4 < length (Py.strip (py "TE DEUM - Ps 64 (65)")).
Proof.
  assert (PyMuPDFSpanParser.classify_line (py "TE DEUM - Ps 64 (65)") 14%Q true
          = Some PyMuPDFSpanParser.title_lines) as Hclass.
  { vm_compute. reflexivity. }
  split; [exact Hclass |].
  exact (proj1 (proj2 (proj2 (proj2 (proj2
    (title_only_if (py "TE DEUM - Ps 64 (65)") 14%Q true Hclass)))))).
Defined.

(** C8.  The Title test leaves out only the long capo keyword.  The pink
    14pt line "KAPO NA II" holds the capo keyword "kapo", which the
    Kapodaster test of the same classifier accepts, and is classified Title
    all the same, since the Title test comes first and looks for
    "kapodaster" only; in exact arithmetic and in binary64. *)
Lemma capo_line_classified_title :
  PyMuPDFSpanParser.classify_line (py "KAPO NA II") (of_int 14 : Q) true
    = Some PyMuPDFSpanParser.title_lines
  ∧ PyMuPDFSpanParser.classify_line (py "KAPO NA II") (of_int 14 : float) true
    = Some PyMuPDFSpanParser.title_lines
  ∧ PyMuPDFSpanParser._is_kapodaster_line (py "KAPO NA II") true = true
  ∧ Py.contains (py "kapo") (Py.lower (Py.strip (py "KAPO NA II"))) = true
  ∧ Py.contains (py "kapodaster") (Py.lower (Py.strip (py "KAPO NA II"))) = false.
Proof. vm_compute. repeat split; reflexivity. Qed.


(** * Further properties of the parsers *)

(** ** The order of the chords of a line *)

Section SortedOutput.
Context {A : Type} (key : A → Z).

Lemma insert_by_key_sorted (x : A) (l : list A) :
  StronglySorted (λ a b, (key a ≤ key b)%Z) l →
  StronglySorted (λ a b, (key a ≤ key b)%Z) (insert_by_key key x l).
Proof.
  induction 1 as [| y l Hl IH Hy]; cbn [insert_by_key].
  - repeat constructor.
  - destruct (key y <? key x)%Z eqn:Hlt.
    + apply Z.ltb_lt in Hlt. constructor; [exact IH |].
      rewrite insert_by_key_perm. constructor; [lia | exact Hy].
    + apply Z.ltb_ge in Hlt. constructor; [by constructor |].
      constructor; [exact Hlt |].
      eapply Forall_impl; [exact Hy |]. cbn. intros z Hz. lia.
Qed.

Lemma sorted_by_key_sorted (l : list A) :
  StronglySorted (λ a b, (key a ≤ key b)%Z) (sorted_by_key key l).
Proof.
  unfold sorted_by_key. induction l as [| x l IH]; cbn [foldr]; [constructor |].
  by apply insert_by_key_sorted.
Qed.

Lemma insert_by_key_filter (k : Z) (x : A) (l : list A) :
  List.filter (λ a, (key a =? k)%Z) (insert_by_key key x l)
  = List.filter (λ a, (key a =? k)%Z) (x :: l).
Proof.
  induction l as [| y l IH]; [reflexivity |].
  cbn [insert_by_key]. destruct (key y <? key x)%Z eqn:Hlt; [| reflexivity].
  apply Z.ltb_lt in Hlt. cbn [List.filter] in *. rewrite IH.
  destruct (key x =? k)%Z eqn:Hx; destruct (key y =? k)%Z eqn:Hy; try reflexivity.
  apply Z.eqb_eq in Hx, Hy. lia.
Qed.

(** The sort is stable: entries with the same key keep their order. *)
Lemma sorted_by_key_stable (k : Z) (l : list A) :
  List.filter (λ a, (key a =? k)%Z) (sorted_by_key key l)
  = List.filter (λ a, (key a =? k)%Z) l.
Proof.
  unfold sorted_by_key. induction l as [| x l IH]; [reflexivity |].
  cbn [foldr]. rewrite insert_by_key_filter. cbn [List.filter]. by rewrite IH.
Qed.

End SortedOutput.

Section ChordOrder.
Context {F : Type} `{PyFloat F}.

(** X1. The chords both lookups return for a lyric line are in
    non-decreasing order of offset, and in the proportional mapper chords
    that share an offset keep the left-to-right order in which the chord
    line gave them.  For any arithmetic. *)
Theorem chords_sorted_by_offset :
  (∀ chord_line text_line : str,
     StronglySorted (λ a b, (ProportionalMapper.position a ≤ ProportionalMapper.position b)%Z)
       (ProportionalMapper.map_chords_proportionally (F:=F) chord_line text_line)
     ∧ ∀ k : Z,
         map ProportionalMapper.chord
           (List.filter (λ c, (ProportionalMapper.position c =? k)%Z)
              (ProportionalMapper.map_chords_proportionally (F:=F) chord_line text_line))
         = map fst
             (List.filter
                (λ '(_, chord_pos),
                   (ProportionalMapper.text_position_of (F:=F)
                      (length (Py.rstrip chord_line))
                      (ProportionalMapper.text_content text_line) chord_pos =? k)%Z)
                (ProportionalMapper.scan_chord_line chord_line 0)))
  ∧ (∀ (text_line_data : PyMuPDFSpanParser.LineData F)
       (chord_lines : list (PyMuPDFSpanParser.LineData F)),
       StronglySorted (λ a b, (PyMuPDFSpanParser.position a ≤ PyMuPDFSpanParser.position b)%Z)
         (PyMuPDFSpanParser._find_chords_with_span_positioning text_line_data chord_lines)).
Proof.
  split.
  - intros chord_line text_line. unfold ProportionalMapper.map_chords_proportionally.
    split; [apply sorted_by_key_sorted |].
    intros k. rewrite sorted_by_key_stable.
    induction (ProportionalMapper.scan_chord_line chord_line 0) as [| [w p] l IH];
      [reflexivity |].
    cbn [map List.filter ProportionalMapper.position].
    destruct (_ =? k)%Z; cbn [map fst ProportionalMapper.chord]; by rewrite IH.
  - intros tl cls. unfold PyMuPDFSpanParser._find_chords_with_span_positioning.
    destruct (PyMuPDFSpanParser.closest_chord_line_above _ _); [| constructor].
    destruct (flt _ _); [constructor | apply sorted_by_key_sorted].
Qed.

End ChordOrder.

(** ** The line renderers of the two parsers *)

(** X2. The line renderer of the span parser loses nothing: its output is
    the lyric text with the bracketed chord names inserted, in the order of
    the stable sort by position, for arbitrary integer positions.  With no
    chord the text comes back unchanged.  When the text is blank and there
    are chords, the text is dropped and the chords are written one after the
    other in the order given, not sorted. *)
Theorem span_renderer_keeps_text_and_chords {F : Type}
    (chords : list (PyMuPDFSpanParser.ChordPosition F)) (lyric_text : str) :
  match chords, Py.strip lyric_text with
  | [], _ => PyMuPDFSpanParser._position_chords_in_lyrics chords lyric_text = lyric_text
  | _ :: _, [] =>
      PyMuPDFSpanParser._position_chords_in_lyrics chords lyric_text
      = concat (map (λ c, PyMuPDFSpanParser.bracket (PyMuPDFSpanParser.chord c)) chords)
  | _ :: _, _ :: _ =>
      Spec.Inserted lyric_text
        (map (λ c, PyMuPDFSpanParser.bracket (PyMuPDFSpanParser.chord c))
           (sorted_by_key PyMuPDFSpanParser.position chords))
        (PyMuPDFSpanParser._position_chords_in_lyrics chords lyric_text)
  end.
Proof.
  pose proof (span_render_inserts chords lyric_text) as Hins.
  destruct chords as [| c cs]; [reflexivity |].
  destruct (Py.strip lyric_text) as [| s0 srest] eqn:Hstrip.
  - unfold PyMuPDFSpanParser._position_chords_in_lyrics. by rewrite Hstrip.
  - exact Hins.
Qed.

(** X3. The line renderer of the proportional mapper loses nothing either:
    the same three cases hold of it. *)
Theorem proportional_renderer_keeps_text_and_chords
    (chords : list ProportionalMapper.ChordPosition) (lyric_text : str) :
  match chords, Py.strip lyric_text with
  | [], _ => ProportionalMapper._position_chords_in_lyrics chords lyric_text = lyric_text
  | _ :: _, [] =>
      ProportionalMapper._position_chords_in_lyrics chords lyric_text
      = concat (map (λ c, ProportionalMapper.bracket (ProportionalMapper.chord c)) chords)
  | _ :: _, _ :: _ =>
      Spec.Inserted lyric_text
        (map (λ c, ProportionalMapper.bracket (ProportionalMapper.chord c))
           (sorted_by_key ProportionalMapper.position chords))
        (ProportionalMapper._position_chords_in_lyrics chords lyric_text)
  end.
Proof.
  pose proof (proportional_render_inserts chords lyric_text) as Hins.
  destruct chords as [| c cs]; [reflexivity |].
  destruct (Py.strip lyric_text) as [| s0 srest] eqn:Hstrip.
  - unfold ProportionalMapper._position_chords_in_lyrics. by rewrite Hstrip.
  - exact Hins.
Qed.

(** ** The parts of a compound chord *)

Section SplitParts.

Lemma split_compound_parts (valid : str → bool) (word : str) :
  PDFtoTextParser.split_compound valid word = [word]
  ∨ ∃ i, 0 < i < length word
      ∧ valid word = false
      ∧ valid (take i word) = true ∧ valid (drop i word) = true
      ∧ PDFtoTextParser.split_compound valid word = [take i word; drop i word].
Proof.
  rewrite (split_compound_unfold valid word).
  destruct (valid word) eqn:Hword; [by left |].
  destruct (PDFtoTextParser.first_split valid word) as [i |] eqn:Hfirst; [| by left].
  right. exists i.
  pose proof (PDFtoTextParser.first_split_range valid word i Hfirst) as Hrange.
  unfold PDFtoTextParser.first_split in Hfirst. apply find_some in Hfirst as [_ Hsplit].
  unfold PDFtoTextParser.splits_with in Hsplit. apply andb_true_iff in Hsplit as [Hleft Hright].
  split; [lia |]. split; [reflexivity |]. split; [exact Hleft |].
  split; [exact Hright |].
  rewrite (split_compound_unfold valid (drop i word)), Hright. reflexivity.
Qed.

(** X4. Splitting a compound chord loses no character: the parts put
    together are the token again.  There are never more than two parts, a
    valid chord is left whole, and when the token is split both parts are
    valid chords. *)
Theorem split_compound_chord_parts (word : str) :
  concat (PDFtoTextParser._split_compound_chord word) = word
  ∧ length (PDFtoTextParser._split_compound_chord word) ≤ 2
  ∧ (ChordSystem.is_valid_chord word = true → PDFtoTextParser._split_compound_chord word = [word])
  ∧ (length (PDFtoTextParser._split_compound_chord word) = 2 →
     Forall (λ part, ChordSystem.is_valid_chord part = true) (PDFtoTextParser._split_compound_chord word)).
Proof.
  unfold PDFtoTextParser._split_compound_chord.
  destruct (split_compound_parts ChordSystem.is_valid_chord word)
    as [Hone | (i & Hi & Hword & Hleft & Hright & Htwo)].
  - rewrite Hone. cbn [concat length]. rewrite app_nil_r.
    split; [reflexivity |]. split; [lia |]. split; [reflexivity |].
    intros Hlen. lia.
  - rewrite Htwo. cbn [concat length]. rewrite app_nil_r, take_drop.
    split; [reflexivity |]. split; [lia |]. split.
    + intros Hvalid. rewrite Hvalid in Hword. discriminate Hword.
    + intros _. constructor; [exact Hleft |]. constructor; [exact Hright | constructor].
Qed.

End SplitParts.

(** ** Role markers *)

Section RoleMarker.
Import ProportionalMapper.

(** The marker the search returns, by cases. *)
Lemma extract_role_marker_cases (line : str) :
  (_extract_role_marker line = []
   ∧ ∀ role, role ∈ role_markers → Py.startswith (Py.strip line) role = false)
  ∨ (_extract_role_marker line ∈ role_markers
     ∧ Py.startswith (Py.strip line) (_extract_role_marker line) = true
     ∧ ∀ role, role ∈ role_markers → Py.startswith (Py.strip line) role = true →
         length role ≤ length (_extract_role_marker line)).
Proof.
  unfold _extract_role_marker.
  change (Py.sorted_by_len_desc role_markers)
    with [py "K.+Z."; py "K."; py "Z."; py "P."].
  unfold role_markers. cbn [List.find].
  destruct (Py.startswith (Py.strip line) (py "K.+Z.")) eqn:H1.
  { right. split; [set_solver |]. split; [exact H1 |].
    intros role Hrole _.
    repeat (apply elem_of_cons in Hrole as [-> | Hrole]); [cbn; lia .. |].
    by apply elem_of_nil in Hrole. }
  destruct (Py.startswith (Py.strip line) (py "K.")) eqn:H2.
  { right. split; [set_solver |]. split; [exact H2 |].
    intros role Hrole Hstarts.
    repeat (apply elem_of_cons in Hrole as [-> | Hrole]);
      [congruence | cbn; lia .. |].
    by apply elem_of_nil in Hrole. }
  destruct (Py.startswith (Py.strip line) (py "Z.")) eqn:H3.
  { right. split; [set_solver |]. split; [exact H3 |].
    intros role Hrole Hstarts.
    repeat (apply elem_of_cons in Hrole as [-> | Hrole]);
      [congruence | cbn; lia .. |].
    by apply elem_of_nil in Hrole. }
  destruct (Py.startswith (Py.strip line) (py "P.")) eqn:H4.
  { right. split; [set_solver |]. split; [exact H4 |].
    intros role Hrole Hstarts.
    repeat (apply elem_of_cons in Hrole as [-> | Hrole]);
      [congruence | cbn; lia .. |].
    by apply elem_of_nil in Hrole. }
  left. split; [reflexivity |].
  intros role Hrole.
  repeat (apply elem_of_cons in Hrole as [-> | Hrole]); try assumption.
  by apply elem_of_nil in Hrole.
Qed.


(** X5. The role marker extracted from a line is the empty string exactly
    when the stripped line starts with no role marker; otherwise it is a
    role marker the stripped line starts with, and the longest one: the
    compound marker "K.+Z." is preferred to its prefix "K.". *)
Theorem extract_role_marker_longest (line : str) :
  (_extract_role_marker line = []
   ∧ ∀ role, role ∈ role_markers → Py.startswith (Py.strip line) role = false)
  ∨ (_extract_role_marker line ∈ role_markers
     ∧ Py.startswith (Py.strip line) (_extract_role_marker line) = true
     ∧ ∀ role, role ∈ role_markers → Py.startswith (Py.strip line) role = true →
         length role ≤ length (_extract_role_marker line)).
Proof. apply extract_role_marker_cases. Qed.

End RoleMarker.

(** ** What the accent colour decides *)

Section AccentColour.
Context {F : Type} `{PyFloat F}.
Import PyMuPDFSpanParser.

(** X6. A line that is not in the accent colour is never classified Title
    nor Kapodaster, whatever its text and font size: it is a chord line, a
    comment or a text line, or it is blank and skipped. *)
Theorem plain_colour_never_title (line_text : str) (font_size : F) :
  classify_line line_text font_size false ≠ Some title_lines
  ∧ classify_line line_text font_size false ≠ Some kapodaster_lines.
Proof.
  unfold classify_line.
  destruct (Py.strip line_text) as [| s0 srest] eqn:Hstrip; [split; discriminate |].
  rewrite <- Hstrip. clear Hstrip s0 srest.
  assert (_is_title_line line_text font_size false = false) as ->.
  { unfold _is_title_line. cbv zeta. by rewrite !andb_false_r. }
  assert (_is_kapodaster_line line_text false = false) as -> by reflexivity.
  cbn [andb].
  destruct (ChordSystem._is_chord_line_text F line_text); [split; discriminate |].
  destruct (_is_comment_line_enhanced line_text false); split; discriminate.
Qed.

End AccentColour.

(** ** The position search of the hybrid parser *)

Section HybridBounds.
Context {F : Type} `{PyFloat F}.
Import HybridPreciseParser.

(** X7. The position the hybrid parser finds is always a position of the
    text, from 0 to its length, for any arithmetic. *)
Theorem find_char_position_in_bounds (text : str) (font_size target_x text_start_x : F) :
  (0 ≤ find_char_position_at_x text font_size target_x text_start_x
     ≤ Z.of_nat (length text))%Z.
Proof.
  pose proof (find_char_position_cases text font_size target_x text_start_x) as Hcases.
  destruct (fle target_x text_start_x); [lia |].
  destruct Hcases as (r & -> & Hlen & _). lia.
Qed.

End HybridBounds.

(** ** The chords located in a chord span *)

Section SplitWords.

Lemma lstrip_head (s : str) (c : ascii) (t : str) :
  Py.lstrip s = c :: t → Py.isspace c = false.
Proof.
  induction s as [| a s IH]; [discriminate |].
  cbn [Py.lstrip]. destruct (Py.isspace a) eqn:Ha; [exact IH |].
  intros [= <- <-]. exact Ha.
Qed.

(** Reading a word: the characters up to the next whitespace are added to
    the word being read. *)
Lemma split_from_word (cur s : str) :
  ∃ w rest,
    s = w ++ rest
    ∧ Forall (λ c, Py.isspace c = false) w
    ∧ match rest with [] => True | c :: _ => Py.isspace c = true end
    ∧ Py.split_from cur s
      = match rev cur ++ w with
        | [] => Py.split_from [] rest
        | word => word :: Py.split_from [] rest
        end.
Proof.
  revert cur. induction s as [| c s IH]; intros cur.
  - exists [], []. split; [reflexivity |]. split; [constructor |]. split; [exact I |].
    rewrite app_nil_r. cbn [Py.split_from].
    destruct cur as [| c0 cur]; [reflexivity |].
    destruct (rev (c0 :: cur)) as [| r0 r] eqn:Hrev; [| reflexivity].
    apply (f_equal length) in Hrev. rewrite length_rev in Hrev. discriminate Hrev.
  - destruct (Py.isspace c) eqn:Hc.
    + exists [], (c :: s). split; [reflexivity |]. split; [constructor |].
      split; [exact Hc |].
      rewrite app_nil_r. cbn [Py.split_from]. rewrite Hc.
      destruct cur as [| c0 cur]; [reflexivity |].
      destruct (rev (c0 :: cur)) as [| r0 r] eqn:Hrev; [| reflexivity].
      apply (f_equal length) in Hrev. rewrite length_rev in Hrev. discriminate Hrev.
    + destruct (IH (c :: cur)) as (w & rest & -> & Hw & Hrest & Hsplit).
      exists (c :: w), rest. split; [reflexivity |].
      split; [by constructor |]. split; [exact Hrest |].
      cbn [Py.split_from]. rewrite Hc, Hsplit.
      cbn [rev]. rewrite <- app_assoc. reflexivity.
Qed.

(** The first word of a line, where it stands, and the words after it. *)
Lemma split_cons (s w : str) (ws : list str) :
  Py.split s = w :: ws →
  ∃ q, q + length w ≤ length s
    ∧ take (length w) (drop q s) = w
    ∧ ws = Py.split (drop (q + length w) s).
Proof.
  intros Hsplit.
  destruct (lstrip_decompose s) as (blanks & Hs & _).
  unfold Py.split in Hsplit. rewrite <- split_from_lstrip in Hsplit.
  destruct (split_from_word [] (Py.lstrip s)) as (w' & rest & Hl & _ & Hrest & Hfrom).
  cbn [rev app] in Hfrom. rewrite Hfrom in Hsplit.
  destruct w' as [| c w'].
  { exfalso. cbn [app] in Hl. rewrite Hl in Hs, Hfrom.
    destruct rest as [| r0 rest].
    - cbn in Hsplit. discriminate Hsplit.
    - pose proof (lstrip_head s r0 rest Hl) as Hhead. congruence. }
  injection Hsplit as <- <-.
  exists (length blanks).
  assert (drop (length blanks) s = (c :: w') ++ rest) as Hdrop.
  { rewrite Hs at 1. rewrite drop_app_length. exact Hl. }
  split.
  { rewrite Hs, Hl, !length_app. lia. }
  split.
  { rewrite Hdrop. by rewrite take_app_length. }
  unfold Py.split. f_equal.
  rewrite <- drop_drop, Hdrop. by rewrite drop_app_length.
Qed.

Lemma startswith_app (w rest : str) : Py.startswith (w ++ rest) w = true.
Proof.
  induction w as [| c w IH]; [by destruct rest |].
  cbn [app Py.startswith]. rewrite IH. unfold Py.char_eqb.
  by rewrite Ascii.eqb_refl.
Qed.

(** [find] returns the first occurrence at or after the start. *)
Lemma find_from_occurs (sub s : str) (i j : nat) :
  j ≤ length s → Py.startswith (drop j s) sub = true →
  ∃ k, Py.find_from sub s i = Some (i + k) ∧ k ≤ j.
Proof.
  revert i j. induction s as [| c s IH]; intros i j Hj Hocc.
  - cbn in Hj. assert (j = 0) as -> by lia. cbn [drop] in Hocc.
    exists 0. cbn [Py.find_from]. rewrite Hocc. split; [f_equal; lia | lia].
  - cbn [Py.find_from].
    destruct (Py.startswith (c :: s) sub) eqn:Hhere.
    + exists 0. split; [f_equal; lia | lia].
    + destruct j as [| j]; [cbn [drop] in Hocc; congruence |].
      cbn [drop length] in Hocc, Hj.
      destruct (IH (S i) j ltac:(lia) Hocc) as (k & Hfind & Hk).
      exists (S k). split; [rewrite Hfind; f_equal; lia | lia].
Qed.

Lemma find_occurs (s sub : str) (start p : nat) :
  start ≤ p → p ≤ length s → Py.startswith (drop p s) sub = true →
  ∃ i, Py.find s sub start = Some i ∧ start ≤ i ≤ p.
Proof.
  intros Hstart Hp Hocc. unfold Py.find.
  destruct (length s <? start) eqn:Hlen; [apply Nat.ltb_lt in Hlen; lia |].
  destruct (find_from_occurs sub (drop start s) start (p - start)) as (k & Hfind & Hk).
  - rewrite length_drop. lia.
  - rewrite drop_drop. replace (start + (p - start)) with p by lia. exact Hocc.
  - exists (start + k). split; [exact Hfind | lia].
Qed.

End SplitWords.

Section ChordsInSpan.
Context {F : Type} `{PyFloat F}.
Import PyMuPDFSpanParser.

(** The loop over the words that remain after position [p] of the span
    text, with [current_pos] not beyond [p]: every word that looks like a
    chord is found. *)
Lemma chord_positions_loop_all (chord_span_text : str)
    (chord_span_start chord_span_width : F) (words : list str) :
  ∀ p current_pos,
    current_pos ≤ p → p ≤ length chord_span_text →
    words = Py.split (drop p chord_span_text) →
    map fst (chord_positions_loop chord_span_text chord_span_start chord_span_width
               words current_pos)
    = List.filter ChordSystem._looks_like_chord words.
Proof.
  induction words as [| word words IH]; intros p current_pos Hpos Hp Hwords;
    [reflexivity |].
  symmetry in Hwords. apply split_cons in Hwords as (q & Hq & Hword & Hrest).
  rewrite length_drop in Hq. rewrite drop_drop in Hword, Hrest.
  assert (Py.startswith (drop (p + q) chord_span_text) word = true) as Hocc.
  { rewrite <- (take_drop (length word) (drop (p + q) chord_span_text)).
    rewrite Hword. apply startswith_app. }
  cbn [chord_positions_loop List.filter].
  destruct (ChordSystem._looks_like_chord word) eqn:Hlooks.
  - destruct (find_occurs chord_span_text word current_pos (p + q)) as (i & Hfind & Hi);
      [lia | lia | exact Hocc |].
    rewrite Hfind. cbn [map fst]. f_equal.
    apply (IH (p + q + length word)); [lia | lia |].
    rewrite Hrest. f_equal. f_equal. lia.
  - apply (IH (p + q + length word)); [lia | lia |].
    rewrite Hrest. f_equal. f_equal. lia.
Qed.

(** X8. Locating the chords of a chord span drops none: the chords returned
    are exactly the whitespace-delimited tokens of the span text that look
    like a chord, in their order, each with a pixel position.  For any
    arithmetic. *)
Theorem chords_in_span_all_located (chord_span_text : str)
    (chord_span_start chord_span_width : F) :
  map fst (find_chord_positions_in_span chord_span_text chord_span_start chord_span_width)
  = List.filter ChordSystem._looks_like_chord (Py.split chord_span_text).
Proof.
  unfold find_chord_positions_in_span.
  apply (chord_positions_loop_all _ _ _ _ 0 0); [lia | lia | reflexivity].
Qed.

End ChordsInSpan.

(** ** Title and kapodaster of the proportional mapper *)

Section TitleDetection.
Import ProportionalMapper ProportionalSong.

Lemma title_loop_found (first_lines : list str) (i0 i : nat) (found : str) :
  title_loop first_lines i0 = Some (i, found) →
  ∃ k line, i = i0 + k ∧ first_lines !! k = Some line ∧ found = Py.strip line
    ∧ Py.strip line ≠ [] ∧ mentions_kapo line = false ∧ looks_like_title line = true.
Proof.
  revert i0. induction first_lines as [| l rest IH]; intros i0 Hloop; [discriminate Hloop |].
  cbn [title_loop] in Hloop.
  assert (title_loop rest (S i0) = Some (i, found) →
          ∃ k line, i = i0 + k ∧ (l :: rest) !! k = Some line ∧ found = Py.strip line
            ∧ Py.strip line ≠ [] ∧ mentions_kapo line = false
            ∧ looks_like_title line = true) as Hnext.
  { intros Hrest. destruct (IH _ Hrest) as (k & line & -> & Hk & Hrest').
    exists (S k), line. split; [lia |]. split; [exact Hk | exact Hrest']. }
  destruct (Py.strip l) as [| s0 srest] eqn:Hstrip; [by apply Hnext |].
  destruct (mentions_kapo l) eqn:Hkapo; [by apply Hnext |].
  destruct (looks_like_title l) eqn:Htitle; [| by apply Hnext].
  injection Hloop as <- <-. exists 0, l.
  split; [lia |]. split; [reflexivity |]. rewrite Hstrip.
  split; [reflexivity |]. split; [discriminate |]. split; [exact Hkapo | exact Htitle].
Qed.

(** X9. The title is looked for in the first ten lines only.  When a title
    is found it is a stripped line of more than ten characters, in capitals,
    that mentions no kapodaster and holds no role marker, and the content
    handed on is what follows that line; when none is found the title is
    empty and the content is all the lines. *)
Theorem detect_title_cases (lines : list str) :
  (_detect_title_from_pdftotext lines = ([], lines))
  ∨ ∃ i line,
      i < 10 ∧ lines !! i = Some line
      ∧ _detect_title_from_pdftotext lines = (Py.strip line, drop (S i) lines)
      ∧ 10 < length (Py.strip line)
      ∧ Py.isupper (Py.strip line) = true
      ∧ mentions_kapo line = false
      ∧ (∀ role, role ∈ role_markers → Py.contains role line = false).
Proof.
  unfold _detect_title_from_pdftotext.
  destruct (title_loop (take 10 lines) 0) as [[i found] |] eqn:Hloop; [| by left].
  right. apply title_loop_found in Hloop
    as (k & line & -> & Hk & -> & _ & Hkapo & Htitle).
  cbn [Nat.add]. exists k, line.
  apply lookup_take_Some in Hk as [Hline Hk10].
  split; [exact Hk10 |]. split; [exact Hline |]. split; [reflexivity |].
  unfold looks_like_title in Htitle.
  apply andb_true_iff in Htitle as [Htitle Hroles].
  apply andb_true_iff in Htitle as [Hupper Hlen].
  split; [by apply Nat.ltb_lt |]. split; [exact Hupper |]. split; [exact Hkapo |].
  intros role Hrole. apply negb_true_iff in Hroles.
  destruct (Py.contains role line) eqn:Hc; [| reflexivity].
  rewrite <- Hroles. symmetry. apply existsb_exists. exists role.
  split; [by apply list_elem_of_In | exact Hc].
Qed.

Lemma kapodaster_loop_found (first_lines : list str) (i0 i : nat) (found : str) :
  kapodaster_loop first_lines i0 = Some (i, found) →
  ∃ k line, i = i0 + k ∧ first_lines !! k = Some line ∧ found = Py.strip line
    ∧ Py.strip line ≠ [] ∧ mentions_kapo line = true
    ∧ ∀ j l, j < k → first_lines !! j = Some l →
        Py.strip l = [] ∨ mentions_kapo l = false.
Proof.
  revert i0. induction first_lines as [| l rest IH]; intros i0 Hloop; [discriminate Hloop |].
  cbn [kapodaster_loop] in Hloop.
  assert (Py.strip l = [] ∨ mentions_kapo l = false →
          kapodaster_loop rest (S i0) = Some (i, found) →
          ∃ k line, i = i0 + k ∧ (l :: rest) !! k = Some line ∧ found = Py.strip line
            ∧ Py.strip line ≠ [] ∧ mentions_kapo line = true
            ∧ ∀ j l', j < k → (l :: rest) !! j = Some l' →
                Py.strip l' = [] ∨ mentions_kapo l' = false) as Hnext.
  { intros Hl Hrest. destruct (IH _ Hrest) as (k & line & -> & Hk & Hf & Hne & Hkapo & Hbefore).
    exists (S k), line. split; [lia |]. split; [exact Hk |]. split; [exact Hf |].
    split; [exact Hne |]. split; [exact Hkapo |].
    intros [| j] l' Hj Hl'.
    - injection Hl' as <-. exact Hl.
    - apply (Hbefore j); [lia | exact Hl']. }
  destruct (Py.strip l) as [| s0 srest] eqn:Hstrip; [apply Hnext; [by left | exact Hloop] |].
  destruct (mentions_kapo l) eqn:Hkapo; [| apply Hnext; [by right | exact Hloop]].
  injection Hloop as <- <-. exists 0, l.
  split; [lia |]. split; [reflexivity |]. rewrite Hstrip.
  split; [reflexivity |]. split; [discriminate |]. split; [exact Hkapo |].
  intros j l' Hj. lia.
Qed.

Lemma kapodaster_loop_none (first_lines : list str) (i0 : nat) :
  kapodaster_loop first_lines i0 = None →
  ∀ l, l ∈ first_lines → Py.strip l = [] ∨ mentions_kapo l = false.
Proof.
  revert i0. induction first_lines as [| l rest IH]; intros i0 Hloop l' Hl'.
  - by apply elem_of_nil in Hl'.
  - cbn [kapodaster_loop] in Hloop.
    destruct (Py.strip l) as [| s0 srest] eqn:Hstrip.
    + apply elem_of_cons in Hl' as [-> | Hl']; [by left | by apply (IH _ Hloop)].
    + destruct (mentions_kapo l) eqn:Hkapo; [discriminate Hloop |].
      apply elem_of_cons in Hl' as [-> | Hl']; [by right | by apply (IH _ Hloop)].
Qed.

(** X10. The kapodaster line is the first line among the first five that is
    not blank and mentions "kapo" (in any case): its stripped text is
    returned and the content handed on is what follows it.  When none of
    the first five lines qualifies, the kapodaster is empty and the content
    is all the lines. *)
Theorem detect_kapodaster_cases (lines : list str) :
  (_detect_kapodaster_from_pdftotext lines = ([], lines)
   ∧ ∀ j l, j < 5 → lines !! j = Some l → Py.strip l = [] ∨ mentions_kapo l = false)
  ∨ ∃ i line,
      i < 5 ∧ lines !! i = Some line
      ∧ _detect_kapodaster_from_pdftotext lines = (Py.strip line, drop (S i) lines)
      ∧ Py.strip line ≠ []
      ∧ mentions_kapo line = true
      ∧ ∀ j l, j < i → lines !! j = Some l → Py.strip l = [] ∨ mentions_kapo l = false.
Proof.
  unfold _detect_kapodaster_from_pdftotext.
  destruct (kapodaster_loop (take 5 lines) 0) as [[i found] |] eqn:Hloop.
  - right. apply kapodaster_loop_found in Hloop
      as (k & line & -> & Hk & -> & Hne & Hkapo & Hbefore).
    cbn [Nat.add]. exists k, line.
    apply lookup_take_Some in Hk as [Hline Hk5].
    split; [exact Hk5 |]. split; [exact Hline |]. split; [reflexivity |].
    split; [exact Hne |]. split; [exact Hkapo |].
    intros j l Hj Hl. apply (Hbefore j); [exact Hj |].
    apply lookup_take_Some. split; [exact Hl | lia].
  - left. split; [reflexivity |].
    intros j l Hj Hl. apply (kapodaster_loop_none _ _ Hloop).
    apply list_elem_of_lookup. exists j. apply lookup_take_Some. split; [exact Hl | exact Hj].
Qed.

End TitleDetection.

(** ** The verse builder of the proportional mapper *)

Section VerseBuilder.
Context {F : Type} `{PyFloat F}.
Import ProportionalMapper ProportionalSong.

Lemma blank_line_no_marker (line : str) :
  Py.strip line = [] → _is_comment_line line = false ∧ _extract_role_marker line = [].
Proof.
  intros Hblank. split.
  - unfold _is_comment_line. cbv zeta. rewrite Hblank. reflexivity.
  - destruct (extract_role_marker_cases line) as [[Hnone _] | (Hin & Hstarts & _)];
      [exact Hnone |].
    rewrite Hblank in Hstarts.
    destruct (_extract_role_marker line) as [| c m]; [reflexivity |].
    cbn in Hstarts. discriminate Hstarts.
Qed.

Lemma role_marker_known (line : str) (c : ascii) (m : str) :
  _extract_role_marker line = c :: m → c :: m ∈ role_markers.
Proof.
  intros Hrole.
  destruct (extract_role_marker_cases line) as [[Hnone _] | (Hin & _)]; congruence.
Qed.

Lemma find_chords_in_range (pre : list str) (line : str) (rest : list str) :
  ∃ chords,
    _find_chords_with_proportional_mapping (F:=F) (pre ++ line :: rest) (length pre)
    = Some chords.
Proof.
  unfold _find_chords_with_proportional_mapping.
  rewrite list_lookup_middle by reflexivity. by eexists.
Qed.

(** The first line of a verse, as it stood in the input. *)
Definition first_original (v : Verse) : option str := original_line <$> head (lines v).

Definition attributed (v : Verse) : Prop := role v ∈ role_markers ∧ lines v ≠ [].

(** What holds of the state when the lines [pre] have been read. *)
Definition builder_inv (st : BuilderState) (pre : list str) : Prop :=
  st_comments st = map Py.strip (List.filter _is_comment_line pre)
  ∧ Forall attributed (st_verses st)
  ∧ match current_role st with
    | [] => current_verse_lines st = []
    | _ :: _ => current_role st ∈ role_markers ∧ current_verse_lines st ≠ []
    end
  ∧ map first_original (flush st) = map Some (List.filter Spec.starts_verse pre).

Lemma flush_attributed (st : BuilderState) (pre : list str) :
  builder_inv st pre → Forall attributed (flush st).
Proof.
  intros (_ & Hverses & Hcurrent & _). unfold flush.
  destruct (current_verse_lines st) as [| l0 ls] eqn:Hlines; [exact Hverses |].
  destruct (current_role st) as [| c m] eqn:Hrole; [exact Hverses |].
  apply Forall_app. split; [exact Hverses |].
  constructor; [| constructor]. destruct Hcurrent as [Hin _].
  split; [exact Hin | discriminate].
Qed.

Lemma builder_step_inv (pre : list str) (line : str) (rest : list str)
    (st : BuilderState) :
  builder_inv st pre →
  ∃ st', builder_step (F:=F) (pre ++ line :: rest) st (length pre) line = Some st'
    ∧ builder_inv st' (pre ++ [line]).
Proof.
  intros Hinv. pose proof Hinv as (Hcomments & Hverses & Hcurrent & Hfirst).
  unfold builder_step, builder_inv.
  rewrite !List.filter_app, !map_app. cbn [List.filter].
  unfold Spec.starts_verse in Hfirst |- *.
  destruct (Py.strip line) as [| s0 srest] eqn:Hstrip.
  { destruct (blank_line_no_marker line Hstrip) as [-> ->]. cbn [negb andb map].
    exists st. rewrite !app_nil_r. split; [reflexivity | exact Hinv]. }
  rewrite <- Hstrip. clear Hstrip s0 srest.
  destruct (_is_comment_line line) eqn:Hcomment.
  { eexists. split; [reflexivity |]. cbn [negb andb map st_comments st_verses
      current_role current_verse_lines].
    rewrite app_nil_r. split; [by rewrite Hcomments |]. split; [exact Hverses |].
    split; [exact Hcurrent |]. exact Hfirst. }
  cbn [negb andb map]. rewrite app_nil_r.
  destruct (_extract_role_marker line) as [| c m] eqn:Hrole.
  - cbn [map]. rewrite app_nil_r.
    destruct (current_role st) as [| rc rm] eqn:Hcur.
    { exists st. split; [reflexivity |]. rewrite Hcur.
      split; [exact Hcomments |]. split; [exact Hverses |].
      split; [exact Hcurrent | exact Hfirst]. }
    destruct (ChordSystem._is_chord_line_text F line) eqn:Hchord; cbn [negb].
    { exists st. split; [reflexivity |]. rewrite Hcur.
      split; [exact Hcomments |]. split; [exact Hverses |].
      split; [exact Hcurrent | exact Hfirst]. }
    destruct (find_chords_in_range pre line rest) as [found ->].
    eexists. split; [reflexivity |].
    cbn [st_comments st_verses current_role current_verse_lines].
    split; [exact Hcomments |]. split; [exact Hverses |].
    destruct Hcurrent as [Hin Hne].
    split.
    { split; [exact Hin |].
      destruct (current_verse_lines st); discriminate. }
    rewrite <- Hfirst. unfold flush.
    cbn [st_verses current_role current_verse_lines]. rewrite ?Hcur.
    destruct (current_verse_lines st) as [| l0 ls]; [contradiction |].
    cbn [app]. rewrite !map_app. reflexivity.
  - destruct (find_chords_in_range pre line rest) as [found ->].
    eexists. split; [reflexivity |].
    cbn [st_comments st_verses current_role current_verse_lines].
    split; [exact Hcomments |]. split; [exact (flush_attributed st pre Hinv) |].
    split; [split; [exact (role_marker_known line c m Hrole) | discriminate] |].
    unfold flush at 1. cbn [st_verses current_role current_verse_lines].
    rewrite map_app, Hfirst. reflexivity.
Qed.

Lemma builder_loop_inv (rest : list str) :
  ∀ (pre : list str) (st : BuilderState),
    builder_inv st pre →
    ∃ st', builder_loop (F:=F) (pre ++ rest) rest (length pre) st = Some st'
      ∧ builder_inv st' (pre ++ rest).
Proof.
  induction rest as [| line rest IH]; intros pre st Hinv.
  - exists st. rewrite app_nil_r. split; [reflexivity | exact Hinv].
  - cbn [builder_loop].
    destruct (builder_step_inv pre line rest st Hinv) as (st1 & -> & Hinv1).
    specialize (IH (pre ++ [line]) st1 Hinv1).
    rewrite <- app_assoc in IH. cbn [app] in IH.
    rewrite length_app in IH. cbn [length] in IH. rewrite Nat.add_1_r in IH.
    exact IH.
Qed.

(** X11. The verse builder of the proportional mapper never fails on its
    chord lookups, and every verse it returns is attributed: a verse is
    started by each line that begins with a role marker and by no other
    line, it carries that marker as its role and that line as its first
    line, and it is never empty.  Text before the first role marker is
    given to no verse.  The comments returned are the comment lines,
    stripped, in their order.  For any arithmetic. *)
Theorem verse_builder_attributes_every_verse (pdftotext_lines : list str) :
  ∃ verses comments,
    _parse_verses_with_proportional_mapping (F:=F) pdftotext_lines = Some (verses, comments)
    ∧ comments = map Py.strip (List.filter _is_comment_line pdftotext_lines)
    ∧ Forall (λ v, role v ∈ role_markers ∧ lines v ≠ []) verses
    ∧ map (λ v, original_line <$> head (lines v)) verses
      = map Some (List.filter Spec.starts_verse pdftotext_lines).
Proof.
  unfold _parse_verses_with_proportional_mapping.
  destruct (builder_loop_inv pdftotext_lines [] initial_state) as (st & Hloop & Hinv).
  { unfold builder_inv. cbn. split; [reflexivity |]. split; [constructor |].
    split; reflexivity. }
  cbn [app length] in Hloop, Hinv. rewrite Hloop.
  exists (flush st), (st_comments st). split; [reflexivity |].
  pose proof (flush_attributed st _ Hinv) as Hattr.
  destruct Hinv as (Hcomments & _ & _ & Hfirst).
  split; [exact Hcomments |]. split; [exact Hattr | exact Hfirst].
Qed.

End VerseBuilder.


(** ** The chords of a chord line ([pdftotext] parser) *)

Section FindLocates.

Lemma startswith_take (s prefix : str) :
  Py.startswith s prefix = true → take (length prefix) s = prefix.
Proof.
  revert s. induction prefix as [| p prefix IH]; intros s Hs; [reflexivity |].
  destruct s as [| c s]; [discriminate Hs |].
  cbn [Py.startswith] in Hs. apply andb_true_iff in Hs as [Hc Hs].
  unfold Py.char_eqb in Hc. apply Ascii.eqb_eq in Hc as ->.
  cbn [length take]. by rewrite (IH s Hs).
Qed.

Lemma find_from_locates (sub s : str) (i r : nat) :
  Py.find_from sub s i = Some r →
  ∃ k, r = i + k ∧ k ≤ length s ∧ Py.startswith (drop k s) sub = true.
Proof.
  revert i. induction s as [| c s IH]; intros i; cbn [Py.find_from].
  - destruct (Py.startswith [] sub) eqn:Hhere; [| discriminate].
    intros [= <-]. exists 0. split; [lia |]. split; [cbn; lia | exact Hhere].
  - destruct (Py.startswith (c :: s) sub) eqn:Hhere.
    + intros [= <-]. exists 0. split; [lia |]. split; [cbn; lia | exact Hhere].
    + intros Hfind. destruct (IH _ Hfind) as (k & -> & Hk & Hocc).
      exists (S k). split; [lia |]. split; [cbn; lia | exact Hocc].
Qed.

(** [find] returns a place at or after [start] where the word stands. *)
Lemma find_locates (s sub : str) (start r : nat) :
  Py.find s sub start = Some r →
  start ≤ r ∧ r ≤ length s ∧ take (length sub) (drop r s) = sub.
Proof.
  unfold Py.find. destruct (length s <? start) eqn:Hlen; [discriminate |].
  apply Nat.ltb_ge in Hlen.
  intros Hfind. apply find_from_locates in Hfind as (k & -> & Hk & Hocc).
  rewrite length_drop in Hk. rewrite drop_drop in Hocc.
  split; [lia |]. split; [lia |]. by apply startswith_take.
Qed.

End FindLocates.

Section ExtractChords.
Import PDFtoTextParser.

(** A chord stands in the line at the place recorded for it. *)
Definition stands_at (chord_line : str) (c : ChordPosition) : Prop :=
  (0 ≤ position c)%Z
  ∧ end_position c = (position c + Z.of_nat (length (chord c)))%Z
  ∧ take (length (chord c)) (drop (Z.to_nat (position c)) chord_line) = chord c.

(** The chords lie between [lo] and [hi], one after the other without
    overlap. *)
Fixpoint in_a_row (lo : Z) (cs : list ChordPosition) (hi : Z) : Prop :=
  match cs with
  | [] => (lo ≤ hi)%Z
  | c :: cs' => (lo ≤ position c)%Z ∧ in_a_row (end_position c) cs' hi
  end.

Lemma in_a_row_app (cs1 cs2 : list ChordPosition) (lo mid hi : Z) :
  in_a_row lo cs1 mid → in_a_row mid cs2 hi →
  Forall (λ c, (position c ≤ end_position c)%Z) cs2 →
  in_a_row lo (cs1 ++ cs2) hi.
Proof.
  revert lo. induction cs1 as [| c cs1 IH]; intros lo; cbn [app in_a_row].
  - intros Hlo Hrest Hall. destruct cs2 as [| c2 cs2]; cbn [in_a_row] in *; [lia |].
    destruct Hrest as [Hmid Hrest]. split; [lia | exact Hrest].
  - intros [Hlo Hrest1] Hrest2 Hall. split; [exact Hlo |]. by apply IH.
Qed.

Lemma in_a_row_weaken (cs : list ChordPosition) (lo lo' hi hi' : Z) :
  (lo' ≤ lo)%Z → (hi ≤ hi')%Z → in_a_row lo cs hi → in_a_row lo' cs hi'.
Proof.
  revert lo lo'. induction cs as [| c cs IH]; intros lo lo' Hlo Hhi; cbn [in_a_row].
  - lia.
  - intros [Hc Hrest]. split; [lia |]. by apply (IH (end_position c)).
Qed.

(** The parts of a word that stands at [char_pos] stand one after the other
    from there. *)
Lemma compound_positions_stand (chord_line : str) (parts : list str) :
  ∀ char_pos,
    take (length (concat parts)) (drop char_pos chord_line) = concat parts →
    Forall (stands_at chord_line) (compound_positions parts char_pos)
    ∧ in_a_row (Z.of_nat char_pos) (compound_positions parts char_pos)
        (Z.of_nat (char_pos + length (concat parts))).
Proof.
  induction parts as [| part parts IH]; intros char_pos Hstands;
    cbn [compound_positions concat in_a_row].
  - split; [constructor | cbn; lia].
  - cbn [concat] in Hstands. rewrite length_app in *.
    assert (take (length part) (drop char_pos chord_line) = part) as Hpart.
    { apply (f_equal (take (length part))) in Hstands.
      rewrite take_take in Hstands.
      rewrite Nat.min_l in Hstands by lia.
      by rewrite take_app_length in Hstands. }
    assert (take (length (concat parts)) (drop (char_pos + length part) chord_line)
            = concat parts) as Hrest.
    { rewrite <- drop_drop, take_drop_commute, Hstands. apply drop_app_length. }
    destruct (IH _ Hrest) as [Hall Hrow].
    split.
    + constructor; [| exact Hall].
      unfold stands_at. cbn [chord position end_position].
      split; [lia |]. split; [lia |]. by rewrite Nat2Z.id.
    + cbn [position end_position]. split; [lia |].
      replace (char_pos + (length part + length (concat parts)))
        with (char_pos + length part + length (concat parts)) by lia.
      exact Hrow.
Qed.

Lemma word_chords_stand (chord_line word : str) (word_pos : nat) :
  take (length word) (drop word_pos chord_line) = word →
  Forall (stands_at chord_line) (word_chords word word_pos)
  ∧ in_a_row (Z.of_nat word_pos) (word_chords word word_pos)
      (Z.of_nat (word_pos + length word)).
Proof.
  intros Hword. unfold word_chords.
  destruct (ChordSystem._looks_like_chord word); [| split; [constructor | cbn; lia]].
  cbv zeta. destruct (1 <? length (_split_compound_chord word)).
  - assert (concat (_split_compound_chord word) = word) as Hconcat.
    { unfold _split_compound_chord.
      destruct (split_compound_parts ChordSystem.is_valid_chord word)
        as [-> | (i & _ & _ & _ & _ & ->)]; cbn [concat]; rewrite app_nil_r;
        [reflexivity | apply take_drop]. }
    pose proof (compound_positions_stand chord_line (_split_compound_chord word) word_pos)
      as Hparts.
    rewrite Hconcat in Hparts. by apply Hparts.
  - split.
    + constructor; [| constructor]. unfold stands_at. cbn [chord position end_position].
      split; [lia |]. split; [lia |]. by rewrite Nat2Z.id.
    + cbn [in_a_row position end_position]. split; lia.
Qed.

Lemma stands_at_ends (chord_line : str) (cs : list ChordPosition) :
  Forall (stands_at chord_line) cs → Forall (λ c, (position c ≤ end_position c)%Z) cs.
Proof. intros Hall. eapply Forall_impl; [exact Hall |]. intros c (_ & -> & _). lia. Qed.

Lemma extract_loop_stands (chord_line : str) (words : list str) :
  ∀ current_pos,
    current_pos ≤ length chord_line →
    Forall (stands_at chord_line) (extract_loop chord_line words current_pos)
    ∧ in_a_row (Z.of_nat current_pos) (extract_loop chord_line words current_pos)
        (Z.of_nat (length chord_line)).
Proof.
  induction words as [| word words IH]; intros current_pos Hpos; cbn [extract_loop].
  - split; [constructor | cbn; lia].
  - destruct (Py.find chord_line word current_pos) as [word_pos |] eqn:Hfind;
      [| by apply IH].
    apply find_locates in Hfind as (Hafter & Hin & Hword).
    assert (word_pos + length word ≤ length chord_line) as Hend.
    { apply (f_equal length) in Hword.
      rewrite length_take, length_drop in Hword. lia. }
    destruct (word_chords_stand chord_line word word_pos Hword) as [Hall1 Hrow1].
    destruct (IH (word_pos + length word) Hend) as [Hall2 Hrow2].
    split; [apply Forall_app; split; [exact Hall1 | exact Hall2] |].
    apply (in_a_row_weaken _ (Z.of_nat word_pos) _ (Z.of_nat (length chord_line)));
      [lia | lia |].
    apply (in_a_row_app _ _ _ (Z.of_nat (word_pos + length word)));
      [exact Hrow1 | exact Hrow2 | exact (stands_at_ends chord_line _ Hall2)].
Qed.

(** X12. Every chord [_extract_chords_from_line] returns stands in the
    chord line at the position recorded for it, its end position is its
    position plus its length, and the chords follow one another from left
    to right without overlap inside the line; the parts of a compound
    token included. *)
Theorem extracted_chords_stand_in_line (chord_line : str) :
  Forall (λ c, (0 ≤ position c)%Z
               ∧ end_position c = (position c + Z.of_nat (length (chord c)))%Z
               ∧ take (length (chord c)) (drop (Z.to_nat (position c)) chord_line)
                 = chord c)
    (_extract_chords_from_line chord_line)
  ∧ in_a_row 0 (_extract_chords_from_line chord_line) (Z.of_nat (length chord_line)).
Proof.
  unfold _extract_chords_from_line.
  destruct (extract_loop_stands chord_line (Py.split chord_line) 0) as [Hall Hrow];
    [lia |].
  split; [exact Hall | exact Hrow].
Qed.

Lemma word_chords_names (word : str) (word_pos : nat) :
  map chord (word_chords word word_pos)
  = if ChordSystem._looks_like_chord word then _split_compound_chord word else [].
Proof.
  unfold word_chords.
  destruct (ChordSystem._looks_like_chord word); [| reflexivity].
  cbv zeta. unfold _split_compound_chord.
  destruct (split_compound_parts ChordSystem.is_valid_chord word)
    as [Hparts | (j & _ & _ & _ & _ & Hparts)]; rewrite Hparts; reflexivity.
Qed.

(** The chords returned are those of the tokens that look like a chord, in
    their order: a token split in two gives its two parts, any other the
    token itself. *)
Lemma extract_loop_tokens (chord_line : str) (words : list str) :
  ∀ p current_pos,
    current_pos ≤ p → p ≤ length chord_line →
    words = Py.split (drop p chord_line) →
    map chord (extract_loop chord_line words current_pos)
    = concat (map _split_compound_chord (List.filter ChordSystem._looks_like_chord words)).
Proof.
  induction words as [| word words IH]; intros p current_pos Hpos Hp Hwords;
    [reflexivity |].
  symmetry in Hwords. apply split_cons in Hwords as (q & Hq & Hword & Hrest).
  rewrite length_drop in Hq. rewrite drop_drop in Hword, Hrest.
  assert (Py.startswith (drop (p + q) chord_line) word = true) as Hocc.
  { rewrite <- (take_drop (length word) (drop (p + q) chord_line)).
    rewrite Hword. apply startswith_app. }
  destruct (find_occurs chord_line word current_pos (p + q)) as (i & Hfind & Hi);
    [lia | lia | exact Hocc |].
  cbn [extract_loop List.filter]. rewrite Hfind, map_app, word_chords_names.
  rewrite (IH (p + q + length word)); [| lia | lia |]; cycle 1.
  { rewrite Hrest. f_equal. f_equal. lia. }
  destruct (ChordSystem._looks_like_chord word); reflexivity.
Qed.

(** X13. [_extract_chords_from_line] drops no chord: the chords returned
    are, in order, the whitespace-delimited tokens of the line that look
    like a chord, a compound token being replaced by its parts. *)
Theorem extracted_chords_are_the_tokens (chord_line : str) :
  map chord (_extract_chords_from_line chord_line)
  = concat (map _split_compound_chord
              (List.filter ChordSystem._looks_like_chord (Py.split chord_line))).
Proof.
  unfold _extract_chords_from_line.
  apply (extract_loop_tokens chord_line _ 0 0); [lia | lia | reflexivity].
Qed.

End ExtractChords.

(** ** The chord line above a lyric line ([pdftotext] parser) *)

Section ChordLineAbove.
Context {F : Type} `{PyFloat F}.
Import PDFtoTextParser.

(** A line the backward search passes over: a blank line, or a comment line
    that is no chord line and starts with no role marker. *)
Definition passed_over (line : str) : bool :=
  match Py.strip line with
  | [] => true
  | _ =>
      negb (_is_chord_line F line)
      && match _extract_role_marker line with [] => true | _ :: _ => false end
      && _is_comment_line line
  end.

(** Line [j] is a chord line and every line between it and line [i] is
    passed over. *)
Definition nearest_chord_line (lines : list str) (i j : nat) (chord_line : str) : Prop :=
  j < i
  ∧ lines !! j = Some chord_line
  ∧ _is_chord_line F chord_line = true
  ∧ ∀ k line, j < k < i → lines !! k = Some line → passed_over line = true.

Lemma chord_line_not_passed_over (line : str) :
  _is_chord_line F line = true → passed_over line = false.
Proof.
  intros Hchord. unfold passed_over.
  destruct (Py.strip line) as [| c s] eqn:Hstrip.
  - unfold _is_chord_line in Hchord. rewrite Hstrip in Hchord. discriminate Hchord.
  - by rewrite Hchord.
Qed.

Lemma search_above_cases (lines : list str) (i : nat) :
  i ≤ length lines →
  (∃ j chord_line,
     search_above F lines i = Some (found_chord_line j)
     ∧ nearest_chord_line lines i j chord_line)
  ∨ (search_above F lines i = Some no_chord_line
     ∧ ∀ j chord_line, ¬ nearest_chord_line lines i j chord_line).
Proof.
  induction i as [| i IH]; intros Hi.
  { right. split; [reflexivity |]. intros j chord_line (Hj & _). lia. }
  cbn [search_above].
  destruct (lookup_lt_is_Some_2 lines i ltac:(lia)) as [line Hline]. rewrite Hline.
  assert (passed_over line = false →
          ∀ j chord_line, nearest_chord_line lines (S i) j chord_line → j = i)
    as Hstop.
  { intros Hnot j chord_line (Hj & _ & _ & Hbetween).
    destruct (decide (j = i)) as [-> | Hne]; [reflexivity |].
    rewrite (Hbetween i line ltac:(lia) Hline) in Hnot. discriminate Hnot. }
  assert (passed_over line = true →
          (∃ j chord_line,
             search_above F lines i = Some (found_chord_line j)
             ∧ nearest_chord_line lines (S i) j chord_line)
          ∨ (search_above F lines i = Some no_chord_line
             ∧ ∀ j chord_line, ¬ nearest_chord_line lines (S i) j chord_line))
    as Hpass.
  { intros Hover.
    destruct (IH ltac:(lia)) as [(j & chord_line & Hsearch & Hj & Hat & Hchord & Hbetween)
                                | [Hsearch Hnone]].
    - left. exists j, chord_line. split; [exact Hsearch |].
      split; [lia |]. split; [exact Hat |]. split; [exact Hchord |].
      intros k l Hk Hl.
      destruct (decide (k = i)) as [-> | Hne]; [| apply (Hbetween k); [lia | exact Hl]].
      rewrite Hline in Hl. by injection Hl as <-.
    - right. split; [exact Hsearch |].
      intros j chord_line (Hj & Hat & Hchord & Hbetween).
      destruct (decide (j = i)) as [-> | Hne].
      + rewrite Hline in Hat. injection Hat as <-.
        rewrite (chord_line_not_passed_over line Hchord) in Hover. discriminate Hover.
      + apply (Hnone j chord_line). split; [lia |]. split; [exact Hat |].
        split; [exact Hchord |]. intros k l Hk. apply Hbetween. lia. }
  unfold passed_over in Hstop, Hpass.
  destruct (Py.strip line) as [| c s] eqn:Hstrip; [by apply Hpass |].
  destruct (_is_chord_line F line) eqn:Hchord.
  { left. exists i, line. split; [reflexivity |]. split; [lia |].
    split; [exact Hline |]. split; [exact Hchord |]. intros k l Hk. lia. }
  cbn [negb andb] in Hstop, Hpass |- *.
  destruct (_extract_role_marker line) as [| r0 r] eqn:Hrole.
  - destruct (_is_comment_line line) eqn:Hcomment; cbn [negb]; [by apply Hpass |].
    right. split; [reflexivity |].
    intros j chord_line Hnear. pose proof (Hstop eq_refl j chord_line Hnear) as ->.
    destruct Hnear as (_ & Hat & Hc & _). congruence.
  - right. split; [reflexivity |].
    intros j chord_line Hnear. pose proof (Hstop eq_refl j chord_line Hnear) as ->.
    destruct Hnear as (_ & Hat & Hc & _). congruence.
Qed.

(** X14. The backward search of the [pdftotext] parser, for a line index
    within the lines, never fails, and it returns the chords of the nearest
    chord line above exactly when only blank lines and comment lines
    separate that chord line from the lyric line; in every other case (a
    text line or a line with a role marker comes first, or there is no
    chord line above) it returns no chords.  For any arithmetic. *)
Theorem chord_line_above_only_past_blank_and_comment_lines
    (lines : list str) (current_index : nat) :
  current_index ≤ length lines →
  (∃ j chord_line,
     nearest_chord_line lines current_index j chord_line
     ∧ _find_chord_line_above F lines current_index
       = Some (_extract_chords_from_line chord_line))
  ∨ ((∀ j chord_line, ¬ nearest_chord_line lines current_index j chord_line)
     ∧ _find_chord_line_above F lines current_index = Some []).
Proof.
  intros Hi. unfold _find_chord_line_above.
  destruct (search_above_cases lines current_index Hi)
    as [(j & chord_line & -> & Hnear) | [-> Hnone]].
  - left. exists j, chord_line. split; [exact Hnear |].
    destruct Hnear as (_ & -> & _). reflexivity.
  - right. split; [exact Hnone | reflexivity].
Qed.

End ChordLineAbove.

Lemma chord_line_above_only_past_blank_and_comment_lines_witness :
  let lines := [py "K. Slava"; py " G  C"; py "(bez: a)"; py ""; py "Bogu"] in
  (∃ j chord_line,
     nearest_chord_line (F:=float) lines 4 j chord_line
     ∧ PDFtoTextParser._find_chord_line_above float lines 4
       = Some (PDFtoTextParser._extract_chords_from_line chord_line))
  ∨ ((∀ j chord_line, ¬ nearest_chord_line (F:=float) lines 4 j chord_line)
     ∧ PDFtoTextParser._find_chord_line_above float lines 4 = Some []).
Proof.
  intros lines.
  apply (chord_line_above_only_past_blank_and_comment_lines (F:=float) lines 4).
  cbn. lia.
Defined.

(** ** The comments of the span parser *)

Section SpanComments.
Context {F : Type} `{PyFloat F}.
Import PyMuPDFSpanParser PyMuPDFSpanSong.

Lemma insert_by_y_perm (x : LineData F) (l : list (LineData F)) :
  insert_by_y x l ≡ₚ x :: l.
Proof.
  induction l as [| a l IH]; cbn [insert_by_y]; [reflexivity |].
  destruct (flt (y a) (y x)); [| reflexivity].
  rewrite IH. apply Permutation_swap.
Qed.

Lemma sorted_by_y_perm (l : list (LineData F)) : sorted_by_y l ≡ₚ l.
Proof.
  induction l as [| x l IH]; [reflexivity |].
  unfold sorted_by_y in *. cbn [foldr]. rewrite insert_by_y_perm. by rewrite IH.
Qed.

(** With no comment open, a line that opens none is a comment of its
    own. *)
Lemma combine_closed (texts : list str) :
  Forall (λ t, opens_comment (Py.strip t) = false) texts →
  ∀ combined_comments,
    foldl combine_step (combined_comments, []) texts
    = (combined_comments ++ map Py.strip texts, []).
Proof.
  induction 1 as [| t texts Ht _ IH]; intros combined_comments; cbn [foldl map].
  - by rewrite app_nil_r.
  - unfold combine_step at 2. cbv zeta. rewrite Ht, andb_false_r, orb_false_r.
    destruct (Py.startswith (Py.strip t) (py "bez:")); rewrite IH;
      rewrite <- app_assoc; reflexivity.
Qed.

(** X15. When no comment line opens a multi-line comment (none starts with
    a parenthesis it does not close), the comments of the song are the
    stripped texts of the comment lines, one comment per line, in the order
    of their y coordinates: nothing is joined and nothing is lost.  For any
    arithmetic. *)
Theorem single_line_comments_pass_through (comment_lines : list (LineData F)) :
  Forall (λ line, opens_comment (Py.strip (text line)) = false) comment_lines →
  _extract_comments_from_classified_lines comment_lines
  = map (λ line, Py.strip (text line)) (sorted_by_y comment_lines)
  ∧ _extract_comments_from_classified_lines comment_lines
    ≡ₚ map (λ line, Py.strip (text line)) comment_lines.
Proof.
  intros Hnone.
  assert (_extract_comments_from_classified_lines comment_lines
          = map (λ line, Py.strip (text line)) (sorted_by_y comment_lines)) as Hres.
  { unfold _extract_comments_from_classified_lines.
    destruct comment_lines as [| l0 ls]; [reflexivity |].
    cbv zeta. rewrite combine_closed.
    - cbn [app]. by rewrite map_map.
    - apply Forall_map. by rewrite sorted_by_y_perm. }
  split; [exact Hres |]. rewrite Hres. by rewrite sorted_by_y_perm.
Qed.




End SpanComments.


Lemma single_line_comments_pass_through_witness :
  let line (t : str) (top : Z) : PyMuPDFSpanParser.LineData float :=
    {| PyMuPDFSpanParser.text := t; PyMuPDFSpanParser.text_content := t;
       PyMuPDFSpanParser.x_start := of_int 50; PyMuPDFSpanParser.width := of_int 200;
       PyMuPDFSpanParser.y := of_int top; PyMuPDFSpanParser.font_size := of_int 9;
       PyMuPDFSpanParser.is_pink := false |} in
  let comment_lines := [line (py "** zbor odgovara") 720%Z; line (py " * zbor") 700%Z] in
  PyMuPDFSpanSong._extract_comments_from_classified_lines comment_lines
  = map (λ line, Py.strip (PyMuPDFSpanParser.text line))
      (PyMuPDFSpanSong.sorted_by_y comment_lines)
  ∧ PyMuPDFSpanSong._extract_comments_from_classified_lines comment_lines
    ≡ₚ map (λ line, Py.strip (PyMuPDFSpanParser.text line)) comment_lines.
Proof.
  intros line comment_lines.
  apply (single_line_comments_pass_through (F:=float) comment_lines).
  constructor; [vm_compute; reflexivity |].
  constructor; [vm_compute; reflexivity | constructor].
Defined.

(** ** The song of the proportional mapper *)

Section ProportionalSongParse.
Context {F : Type} `{PyFloat F}.
Import ProportionalMapper ProportionalSong.

Lemma verse_builder_total (pdftotext_lines : list str) :
  ∃ verses comments,
    _parse_verses_with_proportional_mapping (F:=F) pdftotext_lines = Some (verses, comments)
    ∧ Forall attributed verses.
Proof.
  unfold _parse_verses_with_proportional_mapping.
  destruct (builder_loop_inv (F:=F) pdftotext_lines [] initial_state) as (st & Hloop & Hinv).
  { unfold builder_inv. cbn. split; [reflexivity |]. split; [constructor |].
    split; reflexivity. }
  cbn [app length] in Hloop, Hinv. rewrite Hloop.
  exists (flush st), (st_comments st). split; [reflexivity |].
  exact (flush_attributed st _ Hinv).
Qed.

Lemma detected_title_suffix (lines : list str) :
  ∃ n, snd (_detect_title_from_pdftotext lines) = drop n lines
    ∧ (fst (_detect_title_from_pdftotext lines) = []
       ∨ 10 < length (fst (_detect_title_from_pdftotext lines))).
Proof.
  unfold _detect_title_from_pdftotext.
  destruct (title_loop (take 10 lines) 0) as [[i found] |] eqn:Hloop.
  - exists (S i). split; [reflexivity |]. right. cbn [fst].
    apply title_loop_found in Hloop as (k & line & _ & _ & -> & _ & _ & Htitle).
    unfold looks_like_title in Htitle.
    apply andb_true_iff in Htitle as [Htitle _].
    apply andb_true_iff in Htitle as [_ Hlen]. by apply Nat.ltb_lt.
  - exists 0. split; [reflexivity | by left].
Qed.

Lemma detected_kapodaster_suffix (lines : list str) :
  ∃ n, snd (_detect_kapodaster_from_pdftotext lines) = drop n lines.
Proof.
  unfold _detect_kapodaster_from_pdftotext.
  destruct (kapodaster_loop (take 5 lines) 0) as [[i found] |].
  - by exists (S i).
  - by exists 0.
Qed.

(** X17. [_parse_with_proportional_mapping] returns a song for every list
    of lines and every song name (no chord lookup of the verse builder ever
    fails).  The song is never untitled: its title is a line of more than
    ten characters found among the first ten lines, or else the song name,
    or else "Untitled Song" when the song name is empty.  The verses are
    built from the lines that remain after the title line and the
    kapodaster line, each with a role marker as its role and with at least
    one line.  For any arithmetic. *)
Theorem song_parse_total_and_titled (pdftotext_lines : list str) (song_name : str) :
  ∃ song,
    _parse_with_proportional_mapping (F:=F) pdftotext_lines song_name = Some song
    ∧ title song ≠ []
    ∧ (title song = fst (_detect_title_from_pdftotext pdftotext_lines)
       ∨ (fst (_detect_title_from_pdftotext pdftotext_lines) = []
          ∧ title song = song_name)
       ∨ (fst (_detect_title_from_pdftotext pdftotext_lines) = [] ∧ song_name = []
          ∧ title song = py "Untitled Song"))
    ∧ (∃ n, _parse_verses_with_proportional_mapping (F:=F) (drop n pdftotext_lines)
            = Some (verses song, comments song))
    ∧ Forall (λ v, role v ∈ role_markers ∧ lines v ≠ []) (verses song).
Proof.
  unfold _parse_with_proportional_mapping.
  destruct (detected_title_suffix pdftotext_lines) as (n1 & Hrest1 & Htitle).
  destruct (_detect_title_from_pdftotext pdftotext_lines) as [found content_lines].
  cbn [fst snd] in Hrest1, Htitle |- *. subst content_lines.
  destruct (detected_kapodaster_suffix (drop n1 pdftotext_lines)) as (n2 & Hrest2).
  destruct (_detect_kapodaster_from_pdftotext (drop n1 pdftotext_lines))
    as [kapo content_lines].
  cbn [snd] in Hrest2. subst content_lines. rewrite drop_drop.
  destruct (verse_builder_total (drop (n1 + n2) pdftotext_lines))
    as (vs & cs & Hparse & Hattr).
  rewrite Hparse. eexists. split; [reflexivity |].
  cbn [title verses comments].
  split; [| split; [| split; [by exists (n1 + n2) | exact Hattr]]].
  - destruct found as [| c0 found]; [| discriminate].
    destruct song_name; discriminate.
  - destruct found as [| c0 found]; [| by left].
    destruct song_name as [| s0 song_name]; [right; right | right; left]; done.
Qed.

End ProportionalSongParse.

(** ** Sanity checks of the embedding on concrete inputs *)

(** The two carriers differ where rounding matters: [1/49*49] is one ulp
    below 1 in binary64, and [int()] truncates it to 0. *)
Example float_49 :
  to_int (fmul (fdiv (of_int 1) (of_int 49)) (of_int 49) : float) = 0%Z
  ∧ to_int (fmul (fdiv (of_int 1) (of_int 49)) (of_int 49) : Q) = 1%Z.
Proof. vm_compute. repeat split; reflexivity. Qed.

Example split_example :
  Py.split (py "   G        C7 ") = [py "G"; py "C7"]
  ∧ Py.strip (py "  K. Slava  ") = py "K. Slava"
  ∧ Py.find (py "a b a") (py "a") 1 = Some 4
  ∧ Py.contains (py "bez:") (py "(bez: a)") = true
  ∧ Py.sorted_by_len_desc [py "K."; py "Z."; py "K.+Z."; py "P."; py "K.+P."]
    = [py "K.+Z."; py "K.+P."; py "K."; py "Z."; py "P."].
Proof. vm_compute. repeat split; reflexivity. Qed.

Example valid_chords_example :
  size ChordSystem.valid_chords = 290
  ∧ ChordSystem._looks_like_chord (py "C7") = true
  ∧ ChordSystem._looks_like_chord (py "FE") = true
  ∧ ChordSystem._looks_like_chord (py "Slava") = false
  ∧ ChordSystem._is_chord_line_text Q (py "   G        C7") = true
  ∧ ChordSystem._is_chord_line_text float (py "a d e Bogu K.") = false
  ∧ ChordSystem._is_chord_line_text Q (py "a d e Bogu K.") = false.
Proof. vm_compute. repeat split; reflexivity. Qed.

Example get_char_width_example :
  Arial.get_char_width "A" (of_int 12 : Q) == 8004 # 1000
  ∧ Arial.font_units (ascii_of_nat 200) = 556%Z
  ∧ size Arial.arial_char_widths = 93.
Proof. vm_compute. repeat split; reflexivity. Qed.

Example span_scenario :
  let chords : PyMuPDFSpanParser.LineData Q :=
    {| PyMuPDFSpanParser.text := py "G C7"; PyMuPDFSpanParser.text_content := py "G C7";
       PyMuPDFSpanParser.x_start := 50%Q; PyMuPDFSpanParser.width := 40%Q;
       PyMuPDFSpanParser.y := 88%Q; PyMuPDFSpanParser.font_size := 11%Q;
       PyMuPDFSpanParser.is_pink := true |} in
  let lyric : PyMuPDFSpanParser.LineData Q :=
    {| PyMuPDFSpanParser.text := py "K. Slava Bogu"; PyMuPDFSpanParser.text_content := py "Slava Bogu";
       PyMuPDFSpanParser.x_start := 50%Q; PyMuPDFSpanParser.width := 60%Q;
       PyMuPDFSpanParser.y := 100%Q; PyMuPDFSpanParser.font_size := 11%Q;
       PyMuPDFSpanParser.is_pink := false |} in
  map (λ c, (PyMuPDFSpanParser.chord c, PyMuPDFSpanParser.position c))
    (PyMuPDFSpanParser._find_chords_with_span_positioning lyric [chords])
  = [(py "G", 0%Z); (py "C7", 4%Z)].
Proof. vm_compute. reflexivity. Qed.

Example title_examples :
  PyMuPDFSpanParser.text_for_case_check (py "SVET - Ps 64 (65) X") = py "SVET) X"
  ∧ PyMuPDFSpanParser.text_for_case_check (py "SVET (Kroz godinu)") = py "SVET"
  ∧ PyMuPDFSpanParser.classify_line (py "TE DEUM") (14%Q) true
    = Some PyMuPDFSpanParser.title_lines
  ∧ PyMuPDFSpanParser.classify_line (py "Kapodaster na II. polju") (11%Q) true
    = Some PyMuPDFSpanParser.kapodaster_lines
  ∧ PyMuPDFSpanParser.classify_line (py "K. Slava Bogu na visini") (11%Q) false
    = Some PyMuPDFSpanParser.text_lines
  ∧ PyMuPDFSpanParser.classify_line (py "   ") (11%Q) false = None.
Proof. vm_compute. repeat split; reflexivity. Qed.

Example split_compound_examples :
  PDFtoTextParser._split_compound_chord (py "FE") = [py "F"; py "E"]
  ∧ PDFtoTextParser._split_compound_chord (py "aa7") = [py "a"; py "a7"]
  ∧ PDFtoTextParser._split_compound_chord (py "C7") = [py "C7"]
  ∧ PDFtoTextParser._split_compound_chord (py "Bogu") = [py "Bogu"].
Proof. vm_compute. repeat split; reflexivity. Qed.

Example proportional_examples :
  map (λ c, (ProportionalMapper.chord c, ProportionalMapper.position c))
    (ProportionalMapper.map_chords_proportionally (F:=float)
       (py "   G        C7") (py "K. Slava Bogu na visini"))
  = [(py "G", 4%Z); (py "C7", 17%Z)]
  ∧ ProportionalMapper.scan_chord_line (py " G  Bogu a7 ") 0 = [(py "G", 1); (py "a7", 9)]
  ∧ ProportionalMapper.search_above Q [py " G  C"; py "K. Slava"; py "(bez: a)"; py ""; py "Bogu"] 4
    = None
  ∧ ProportionalMapper.search_above Q [py " G  C"; py "(bez: a)"; py ""; py "Bogu"] 3
    = Some 0.
Proof. vm_compute. repeat split; reflexivity. Qed.

Example to_chordpro_examples :
  let line (cs : list (Models.Chord Q)) :=
    {| Models.text := py "Slava Bogu"; Models.chords := cs;
       Models.original_line := py "K. Slava Bogu"; Models.line_type := Models.VERSE_TEXT |} in
  let c name pos := {| Models.chord := py name; Models.position := pos; Models.pixel_x := 0%Q |} in
  Models.to_chordpro (line []) = py "Slava Bogu"
  ∧ Models.to_chordpro (line [c "C7" 6%Z; c "G" 0%Z]) = py "[G]Slava [C7]Bogu"
  ∧ Models.to_chordpro (line [c "a" 99%Z; c "G" (-3)%Z; c "d" 10%Z]) = py "[G]Slava Bogu[d][a]".
Proof. vm_compute. repeat split; reflexivity. Qed.
